(** * ratelimiter: per-client token-bucket admission control

    A shallow embedding of the Go package [ratelimiter]: the configuration
    and its [Validate] method, the registry of visitors with [getVisitor],
    the periodic [cleanupVisitors] pass, the admission check performed by
    [Middleware], and the client-key extraction [getClientIP].

    Conventions.
    - [time.Time] and [time.Duration] are integers counting nanoseconds
      ([Z]); the saturation of [time.Time.Sub] at the ends of the int64
      range is outside the model.
    - A [float64] of the configuration is not a number, an infinity or a
      finite value; a finite value is read as the rational number it
      denotes ([Q]), so rounding is outside the model.  The token bucket
      computes with rationals.
    - [*Config] pointers are locations of an explicit store, so that the
      sharing between the caller and the limiter is visible.
    - The mutex serialises the map operations; the model is the sequential
      one in which every operation runs to completion. *)

From Stdlib Require Import ZArith QArith Qminmax Lqa Lia Ascii String.
From stdpp Require Import gmap strings list fin_maps.

Local Open Scope Z_scope.

(** ** Time *)

Definition Nanosecond : Z := 1.
Definition Second : Z := 1000000000 * Nanosecond.
Definition Minute : Z := 60 * Second.

(** [Duration.Seconds]: a duration as a number of seconds. *)
Definition Seconds (d : Z) : Q := (inject_Z d / inject_Z Second)%Q.

(** ** Floating-point values *)

Inductive float64 :=
  | NaN
  | Inf (negative : bool)
  | Finite (q : Q).

(** The comparisons [x <= y] and [x < y] of Go on [float64]: false as soon
    as one side is not a number. *)
Definition f64_leb (x y : float64) : bool :=
  match x, y with
  | NaN, _ | _, NaN => false
  | Inf true, _ => true
  | _, Inf false => true
  | Inf false, _ => false
  | _, Inf true => false
  | Finite a, Finite b => Qle_bool a b
  end.

Definition f64_ltb (x y : float64) : bool :=
  match x, y with
  | NaN, _ | _, NaN => false
  | Inf true, Inf true => false
  | Inf true, _ => true
  | Inf false, _ => false
  | Finite _, Inf negative => negb negative
  | Finite a, Finite b => negb (Qle_bool b a)
  end.

Definition f64_le (x y : float64) : Prop := f64_leb x y = true.
Definition f64_lt (x y : float64) : Prop := f64_ltb x y = true.

(** ** Configuration *)

Record Config := mkConfig {
  RequestsPerSecond : float64;
  Burst : Z;
  CleanupInterval : Z;
  MaxIdleTime : Z
}.

(** The struct literal of [DefaultConfig]. *)
Definition defaults : Config :=
  {| RequestsPerSecond := Finite 1;
     Burst := 5;
     CleanupInterval := Minute;
     MaxIdleTime := 3 * Minute |}.

Definition set_RequestsPerSecond (x : float64) (c : Config) : Config :=
  {| RequestsPerSecond := x; Burst := Burst c;
     CleanupInterval := CleanupInterval c; MaxIdleTime := MaxIdleTime c |}.
Definition set_Burst (x : Z) (c : Config) : Config :=
  {| RequestsPerSecond := RequestsPerSecond c; Burst := x;
     CleanupInterval := CleanupInterval c; MaxIdleTime := MaxIdleTime c |}.
Definition set_CleanupInterval (x : Z) (c : Config) : Config :=
  {| RequestsPerSecond := RequestsPerSecond c; Burst := Burst c;
     CleanupInterval := x; MaxIdleTime := MaxIdleTime c |}.
Definition set_MaxIdleTime (x : Z) (c : Config) : Config :=
  {| RequestsPerSecond := RequestsPerSecond c; Burst := Burst c;
     CleanupInterval := CleanupInterval c; MaxIdleTime := x |}.

(** The body of [Config.Validate]: four guarded assignments, in order. *)
Definition Config_Validate (c : Config) : Config :=
  let c := if f64_leb (RequestsPerSecond c) (Finite 0)
           then set_RequestsPerSecond (Finite 1) c else c in
  let c := if Burst c <=? 0 then set_Burst 5 c else c in
  let c := if CleanupInterval c <? Second
           then set_CleanupInterval Minute c else c in
  let c := if MaxIdleTime c <? Second
           then set_MaxIdleTime (3 * Minute) c else c in
  c.

(** ** The store of [Config] values *)

Definition ptr := positive.
Abbreviation heap := (gmap ptr Config).

(** [DefaultConfig] returns the address of a newly allocated [Config]. *)
Definition DefaultConfig (h : heap) : ptr * heap :=
  let p := fresh (dom h) in (p, <[p := defaults]> h).

(** [Validate] through its pointer receiver: the pointed-to value is
    overwritten in place.  [None] is the nil-dereference panic. *)
Definition Validate (p : ptr) (h : heap) : option heap :=
  c ← h !! p; Some (<[p := Config_Validate c]> h).

(** ** The token bucket *)

(** Modelled from the spec: the type [rate.Limiter] of
    golang.org/x/time/rate, which is not part of the sources.  The fields
    are those of the spec's TokenBucket: the refill rate in tokens per
    second, the capacity, the available tokens and the time of the last
    refill. *)
Record Limiter := mkLimiter {
  rate : Q;
  capacity : Z;
  tokens : Q;
  lastRefill : Z
}.

(** Modelled from the spec: the conversion [rate.Limit], missing from the
    sources, which hands the configured rate to the bucket.  The bucket of
    the spec has a real rate: a finite value is handed over as it is; a
    value that is not a finite number denotes no real rate and is taken
    as 0. *)
Definition Limit (r : float64) : Q :=
  match r with
  | Finite q => q
  | _ => 0
  end.

(** Modelled from the spec: [rate.NewLimiter], missing from the sources.
    A bucket is created with its tokens initialised to the capacity; its
    last refill is the time of its creation. *)
Definition NewLimiter (r : Q) (b : Z) (now : Z) : Limiter :=
  {| rate := r; capacity := b; tokens := inject_Z b; lastRefill := now |}.

(** The tokens available at [now]: the stored tokens plus
    [elapsed * rate], capped at the capacity. *)
Definition refill (l : Limiter) (now : Z) : Q :=
  let t := (tokens l + Seconds (now - lastRefill l) * rate l)%Q in
  if Qle_bool (inject_Z (capacity l)) t then inject_Z (capacity l) else t.

(** Modelled from the spec: [rate.Limiter.Allow], missing from the sources;
    the spec's TryConsume.  The bucket is refilled for the time elapsed
    since the last refill and [lastRefill] becomes [now]; with at least one
    token available one token is taken and the verdict is [true], otherwise
    the verdict is [false] and the refilled tokens are kept. *)
Definition Allow (l : Limiter) (now : Z) : bool * Limiter :=
  let t := refill l now in
  if Qle_bool 1 t
  then (true, {| rate := rate l; capacity := capacity l;
                 tokens := (t - 1)%Q; lastRefill := now |})
  else (false, {| rate := rate l; capacity := capacity l;
                  tokens := t; lastRefill := now |}).

(** ** The registry *)

Record visitor := mkVisitor {
  limiter : Limiter;
  lastSeen : Z
}.

Record RateLimiter := mkRateLimiter {
  config : ptr;
  visitors : gmap string visitor
}.

Definition set_visitors (m : gmap string visitor) (rl : RateLimiter) :=
  {| config := config rl; visitors := m |}.
Definition set_lastSeen (t : Z) (v : visitor) : visitor :=
  {| limiter := limiter v; lastSeen := t |}.
Definition set_limiter (l : Limiter) (v : visitor) : visitor :=
  {| limiter := l; lastSeen := lastSeen v |}.

(** [New]: a nil configuration is replaced by a new default one, the
    configuration is validated in place, and the limiter keeps the
    pointer.  The goroutine started by [go rl.cleanupVisitors()] is the
    source of the [Tick] events below. *)
Definition New (cfg : option ptr) (h : heap) : option (RateLimiter * heap) :=
  let '(p, h) := match cfg with
                 | None => DefaultConfig h
                 | Some p => (p, h)
                 end in
  h ← Validate p h;
  Some ({| config := p; visitors := ∅ |}, h).

(** [getVisitor] at clock reading [now]: the limiter of [ip], created on
    first sight from the configuration read through the pointer.  The
    returned limiter is the one held by the entry of [ip]. *)
Definition getVisitor (h : heap) (rl : RateLimiter) (ip : string) (now : Z)
  : option (Limiter * RateLimiter) :=
  match visitors rl !! ip with
  | None =>
      c ← h !! config rl;
      let limiter := NewLimiter (Limit (RequestsPerSecond c)) (Burst c) now in
      Some (limiter,
            set_visitors
              (<[ip := {| limiter := limiter; lastSeen := now |}]> (visitors rl))
              rl)
  | Some v =>
      Some (limiter v,
            set_visitors (<[ip := set_lastSeen now v]> (visitors rl)) rl)
  end.

(** The admission check of the [Middleware] handler for the key [ip]:
    [getVisitor] at clock reading [tSeen], then [Allow] on the returned
    limiter at clock reading [tAllow].  The limiter is shared with the
    entry of [ip], which therefore sees the update. *)
Definition Check (h : heap) (rl : RateLimiter) (ip : string) (tSeen tAllow : Z)
  : option (bool * RateLimiter) :=
  '(l, rl) ← getVisitor h rl ip tSeen;
  let '(ok, l) := Allow l tAllow in
  Some (ok, set_visitors (alter (set_limiter l) ip (visitors rl)) rl).

(** One iteration of the loop of [cleanupVisitors], at clock reading
    [now]: every entry whose idle time has reached [MaxIdleTime] is
    deleted from the map. *)
Definition cleanupVisitors (h : heap) (rl : RateLimiter) (now : Z)
  : option RateLimiter :=
  c ← h !! config rl;
  Some (set_visitors
          (map_fold (λ ip v m,
                       if MaxIdleTime c <=? now - lastSeen v
                       then delete ip m else m)
                    (visitors rl) (visitors rl))
          rl).

(** ** Histories *)

(** What happens to a limiter after [New]: a request goes through the
    handler of [Middleware], or the ticker of the [cleanupVisitors]
    goroutine fires.  The package has no other operation on a limiter. *)
Inductive event :=
  | Request (ip : string) (tSeen tAllow : Z)
  | Tick (now : Z).

Definition step (h : heap) (rl : RateLimiter) (e : event)
  : option (option bool * RateLimiter) :=
  match e with
  | Request ip tSeen tAllow =>
      '(ok, rl) ← Check h rl ip tSeen tAllow; Some (Some ok, rl)
  | Tick now =>
      rl ← cleanupVisitors h rl now; Some (None, rl)
  end.

Fixpoint run (h : heap) (rl : RateLimiter) (es : list event)
  : option (list (option bool) * RateLimiter) :=
  match es with
  | [] => Some ([], rl)
  | e :: es =>
      '(o, rl) ← step h rl e;
      '(os, rl) ← run h rl es;
      Some (o :: os, rl)
  end.

(** Consecutive admission checks for one key; each check has its two clock
    readings. *)
Fixpoint Checks (h : heap) (rl : RateLimiter) (ip : string)
    (ts : list (Z * Z)) : option (list bool * RateLimiter) :=
  match ts with
  | [] => Some ([], rl)
  | (tSeen, tAllow) :: ts =>
      '(ok, rl) ← Check h rl ip tSeen tAllow;
      '(oks, rl) ← Checks h rl ip ts;
      Some (ok :: oks, rl)
  end.

(** The clock never runs backwards: the readings of a history, in order,
    starting from [c]. *)
Fixpoint clock_from (c : Z) (ts : list (Z * Z)) : Prop :=
  match ts with
  | [] => True
  | (tSeen, tAllow) :: ts => c <= tSeen ∧ tSeen <= tAllow ∧ clock_from tAllow ts
  end.

(** ** The package-level instance *)

(** [Initialize]: the new value of [globalLimiter]. *)
Definition Initialize (cfg : option ptr) (h : heap)
  : option (option RateLimiter * heap) :=
  '(rl, h) ← New cfg h; Some (Some rl, h).

(** ** The client key *)

(** [strings.Split] for a one-byte separator: the pieces of [s] between
    the occurrences of [sep]; never empty. *)
Fixpoint Split (s : string) (sep : ascii) : list string :=
  match s with
  | EmptyString => [EmptyString]
  | String c s' =>
      if Ascii.eqb c sep then EmptyString :: Split s' sep
      else match Split s' sep with
           | x :: xs => String c x :: xs
           | [] => [String c EmptyString]
           end
  end.

(** A request, as far as [getClientIP] reads it: [r.Header.Get] and
    [r.RemoteAddr]. *)
Record request := mkRequest {
  Header_Get : string → string;
  RemoteAddr : string
}.

Section ClientKey.
(** [strings.TrimSpace] and [net.SplitHostPort] belong to the Go
    standard library; [SplitHostPort] answers [None] where the Go
    function returns an error. *)
Variable TrimSpace : string → string.
Variable SplitHostPort : string → option (string * string).

Definition getClientIP (r : request) : string :=
  let xForwardedFor := Header_Get r "X-Forwarded-For" in
  if negb (String.eqb xForwardedFor "") then
    match Split xForwardedFor ","%char with
    | ip0 :: _ => TrimSpace ip0
    | [] => EmptyString
    end
  else
    let realIP := Header_Get r "X-Real-IP" in
    if negb (String.eqb realIP "") then realIP
    else
      match SplitHostPort (RemoteAddr r) with
      | Some (host, _) => host
      | None => RemoteAddr r
      end.

(** The handler returned by [Middleware], on the request [r]: [true]
    when the request is passed on to [next], [false] when it is answered
    with 429. *)
Definition Middleware (h : heap) (rl : RateLimiter) (r : request)
    (tSeen tAllow : Z) : option (bool * RateLimiter) :=
  Check h rl (getClientIP r) tSeen tAllow.
End ClientKey.

(** Instances of the two library functions for byte strings without
    non-ASCII white space and for addresses of the form host:port. *)
Definition isSpace (c : ascii) : bool :=
  let n := nat_of_ascii c in
  ((9 <=? n) && (n <=? 13) || (n =? 32))%nat.

Fixpoint trimLeft (s : string) : string :=
  match s with
  | String c s' => if isSpace c then trimLeft s' else s
  | EmptyString => EmptyString
  end.

Fixpoint trimRight (s : string) : string :=
  match s with
  | EmptyString => EmptyString
  | String c s' =>
      match trimRight s' with
      | EmptyString => if isSpace c then EmptyString else String c EmptyString
      | t => String c t
      end
  end.

Definition asciiTrimSpace (s : string) : string := trimRight (trimLeft s).

Fixpoint splitLastColon (s : string) : option (string * string) :=
  match s with
  | EmptyString => None
  | String c s' =>
      match splitLastColon s' with
      | Some (host, port) => Some (String c host, port)
      | None => if Ascii.eqb c ":"%char then Some (EmptyString, s') else None
      end
  end.

(** A header with the two fields [getClientIP] reads. *)
Definition header_of (xForwardedFor realIP : string) : string → string :=
  λ key, if String.eqb key "X-Forwarded-For" then xForwardedFor
         else if String.eqb key "X-Real-IP" then realIP
         else EmptyString.

(** The byte [a] occurs in [s]. *)
Fixpoint occurs (a : ascii) (s : string) : bool :=
  match s with
  | EmptyString => false
  | String c s' => Ascii.eqb c a || occurs a s'
  end.

(** ** The earlier, package-level variant (rate-limit.go) *)

Module Legacy.

(** The package variables [visitors] and [config]. *)
Record state := mkState {
  config : option ptr;
  visitors : gmap string visitor
}.

Definition set_visitors (m : gmap string visitor) (s : state) : state :=
  {| config := config s; visitors := m |}.

Definition Initialize (cfg : option ptr) (s : state) (h : heap)
  : state * heap :=
  let '(p, h) := match cfg with
                 | None => DefaultConfig h
                 | Some p => (p, h)
                 end in
  ({| config := Some p; visitors := visitors s |}, h).

Definition getVisitor (h : heap) (s : state) (ip : string) (now : Z)
  : option (Limiter * state) :=
  match visitors s !! ip with
  | None =>
      p ← config s;
      c ← h !! p;
      let limiter := NewLimiter (Limit (RequestsPerSecond c)) (Burst c) now in
      Some (limiter,
            set_visitors
              (<[ip := {| limiter := limiter; lastSeen := now |}]> (visitors s))
              s)
  | Some v =>
      Some (limiter v,
            set_visitors (<[ip := set_lastSeen now v]> (visitors s)) s)
  end.

(** One iteration of the loop: only entries idle for strictly more than
    [MaxIdleTime] are deleted. *)
Definition cleanupVisitors (h : heap) (s : state) (now : Z) : option state :=
  p ← config s;
  c ← h !! p;
  Some (set_visitors
          (map_fold (λ ip v m,
                       if MaxIdleTime c <? now - lastSeen v
                       then delete ip m else m)
                    (visitors s) (visitors s))
          s).

(** The key of a request is its raw [RemoteAddr]. *)
Definition RateLimitMiddleware (h : heap) (s : state) (r : request)
    (tSeen tAllow : Z) : option (bool * state) :=
  '(l, s) ← getVisitor h s (RemoteAddr r) tSeen;
  let '(ok, l) := Allow l tAllow in
  Some (ok, set_visitors (alter (set_limiter l) (RemoteAddr r) (visitors s)) s).

(** The first statement of [RateLimitMiddleware], run when the middleware
    is built: with [config] still nil the package is initialised with a new
    default configuration. *)
Definition RateLimitMiddleware_setup (s : state) (h : heap) : state * heap :=
  match config s with
  | None => let '(p, h) := DefaultConfig h in Initialize (Some p) s h
  | Some _ => (s, h)
  end.

End Legacy.

(** ** The package-level instance and its handlers *)

Module Global.

(** The [RateLimiter] objects of the program, by address, and the package
    variable [globalLimiter]. *)
Record package := mkPackage {
  limiters : gmap ptr RateLimiter;
  globalLimiter : option ptr
}.

(** [Initialize]: a new limiter is allocated and [globalLimiter] points to
    it. *)
Definition Initialize (cfg : option ptr) (pk : package) (h : heap)
  : option (package * heap) :=
  '(rl, h) ← New cfg h;
  let q := fresh (dom (limiters pk)) in
  Some ({| limiters := <[q := rl]> (limiters pk); globalLimiter := Some q |}, h).

(** [RateLimitMiddleware]: the package is initialised with a new default
    configuration when [globalLimiter] is nil; the handler returned is the
    one of the limiter [globalLimiter] points to at that moment, given here
    by the address of that limiter. *)
Definition RateLimitMiddleware (pk : package) (h : heap)
  : option (ptr * package * heap) :=
  '(pk, h) ← match globalLimiter pk with
             | None => let '(p, h) := DefaultConfig h in Initialize (Some p) pk h
             | Some _ => Some (pk, h)
             end;
  q ← globalLimiter pk;
  Some (q, pk, h).

(** A request for the key [ip] served by the handler of the limiter at
    [q]. *)
Definition ServeHTTP (q : ptr) (pk : package) (h : heap) (ip : string)
    (tSeen tAllow : Z) : option (bool * package) :=
  rl ← limiters pk !! q;
  '(ok, rl) ← Check h rl ip tSeen tAllow;
  Some (ok, {| limiters := <[q := rl]> (limiters pk);
               globalLimiter := globalLimiter pk |}).

End Global.

(** ** Auxiliary notions for the statements *)

(** The bucket is in a sound state at clock reading [c]. *)
Record bucket_ok (l : Limiter) (c : Z) : Prop := mkBucketOk {
  ok_rate : (0 <= rate l)%Q;
  ok_tokens_lo : (0 <= tokens l)%Q;
  ok_tokens_hi : (tokens l <= inject_Z (capacity l))%Q;
  ok_clock : lastRefill l <= c
}.

(** The limiter [getVisitor] returns for [ip]: the one of the entry, or a
    new one made from the configuration. *)
Definition bucket_of (c : Config) (rl : RateLimiter) (ip : string) (now : Z)
  : Limiter :=
  match visitors rl !! ip with
  | Some v => limiter v
  | None => NewLimiter (Limit (RequestsPerSecond c)) (Burst c) now
  end.

(** The verdicts of [n] checks at one instant on a bucket holding [k]
    tokens. *)
Definition burst_verdicts (n : nat) (k : Z) : list bool :=
  replicate (n `min` Z.to_nat k)%nat true ++ replicate (n - Z.to_nat k)%nat false.

(** The bucket of [ip], when the registry has one, is sound at clock
    reading [c]. *)
Definition entry_ok (rl : RateLimiter) (ip : string) (c : Z) : Prop :=
  ∀ v, visitors rl !! ip = Some v → bucket_ok (limiter v) c.

(** The constraints of the configuration options. *)
Definition valid (c : Config) : Prop :=
  f64_lt (Finite 0) (RequestsPerSecond c) ∧ 1 <= Burst c ∧
  Second <= CleanupInterval c ∧ Second <= MaxIdleTime c.

(** None of the four tests of [Validate] fires on [c]. *)
Definition settled (c : Config) : Prop :=
  ¬ f64_le (RequestsPerSecond c) (Finite 0) ∧ 0 < Burst c ∧
  Second <= CleanupInterval c ∧ Second <= MaxIdleTime c.

(** Two limiters answer every history of requests and ticks alike. *)
Definition same_behaviour (h1 : heap) (rl1 : RateLimiter)
    (h2 : heap) (rl2 : RateLimiter) : Prop :=
  ∀ es, fst <$> run h1 rl1 es = fst <$> run h2 rl2 es.

(** The event [e] shuts the sweep down: once it has happened, no pass of
    the sweep changes the map any more. *)
Definition stops_sweep (e : event) : Prop :=
  ∀ (h : heap) rl o rl',
    is_Some (h !! config rl) →
    step h rl e = Some (o, rl') →
    ∀ now rl'', cleanupVisitors h rl' now = Some rl'' →
                visitors rl'' = visitors rl'.

(** The keys requested in a history. *)
Fixpoint keys_of (es : list event) : list string :=
  match es with
  | [] => []
  | Request ip _ _ :: es => ip :: keys_of es
  | Tick _ :: es => keys_of es
  end.

(** The clock readings of the requests of a history. *)
Fixpoint readings_of (es : list event) : list (Z * Z) :=
  match es with
  | [] => []
  | Request _ tSeen tAllow :: es => (tSeen, tAllow) :: readings_of es
  | Tick _ :: es => readings_of es
  end.

(** The answers to the requests of a history. *)
Definition answers (os : list (option bool)) : list bool := omap id os.

(** In the history [es] every request is for [ip], and every tick comes
    less than [idle] after the time the key was last seen, [seen] being
    that time at the start when there is one. *)
Fixpoint stays_active (ip : string) (idle : Z) (seen : option Z)
    (es : list event) : Prop :=
  match es with
  | [] => True
  | Request ip' tSeen _ :: es => ip' = ip ∧ stays_active ip idle (Some tSeen) es
  | Tick now :: es =>
      match seen with
      | Some t => now - t < idle
      | None => True
      end ∧ stays_active ip idle seen es
  end.

(** A store holding the default configuration, an empty registry on it,
    and a registry whose only bucket was emptied at clock reading 0. *)
Definition heap0 : heap := {[ 1%positive := defaults ]}.
Definition empty_registry : RateLimiter :=
  {| config := 1%positive; visitors := ∅ |}.
Definition spent_visitor : visitor :=
  {| limiter := {| rate := 1; capacity := 5; tokens := 0; lastRefill := 0 |};
     lastSeen := 0 |}.
Definition spent_registry : RateLimiter :=
  {| config := 1%positive; visitors := {[ "10.0.0.1"%string := spent_visitor ]} |}.

(** A store holding the zero value of [Config]. *)
Definition zero_config : Config :=
  {| RequestsPerSecond := Finite 0; Burst := 0;
     CleanupInterval := 0; MaxIdleTime := 0 |}.

(** A configuration whose rate is not a number, its other fields being the
    default ones. *)
Definition nan_config : Config :=
  {| RequestsPerSecond := NaN; Burst := 5;
     CleanupInterval := Minute; MaxIdleTime := 3 * Minute |}.
Definition heap_nan : heap := {[ 1%positive := nan_config ]}.
Definition heap_zero : heap := {[ 1%positive := zero_config ]}.

(** A registry whose only visitor was last seen at clock reading [t]. *)
Definition seen_at (ip : string) (t : Z) : RateLimiter :=
  {| config := 1%positive;
     visitors := {[ ip := {| limiter := NewLimiter 1 5 t; lastSeen := t |} ]} |}.

(** A request that came through two proxies. *)
Definition proxied_request : request :=
  {| Header_Get := header_of " 203.0.113.7 , 10.0.0.1" "198.51.100.2";
     RemoteAddr := "192.0.2.1:4711" |}.

(** * Properties *)

(** ** Arithmetic of the bucket *)

Lemma Qle_bool_false x y : Qle_bool x y = false ↔ (y < x)%Q.
Proof.
  rewrite <- not_true_iff_false, Qle_bool_iff. split.
  - apply Qnot_le_lt.
  - apply Qlt_not_le.
Qed.

Lemma Second_pos : (0 < inject_Z Second)%Q.
Proof. by vm_compute. Qed.

Lemma Seconds_0 : (Seconds 0 == 0)%Q.
Proof. by vm_compute. Qed.

Lemma Seconds_nonneg d : 0 <= d → (0 <= Seconds d)%Q.
Proof.
  intros Hd. unfold Seconds.
  apply Qle_shift_div_l; [apply Second_pos|].
  rewrite Qmult_0_l. change 0%Q with (inject_Z 0). by rewrite <- Zle_Qle.
Qed.

Lemma Seconds_plus d1 d2 : (Seconds (d1 + d2) == Seconds d1 + Seconds d2)%Q.
Proof. unfold Seconds. rewrite inject_Z_plus. by field. Qed.

Lemma Seconds_Second : (Seconds Second == 1)%Q.
Proof. by vm_compute. Qed.

Lemma Seconds_le d1 d2 : d1 <= d2 → (Seconds d1 <= Seconds d2)%Q.
Proof.
  intros Hd. assert (H := Seconds_nonneg (d2 - d1) ltac:(lia)).
  replace d2 with (d1 + (d2 - d1)) by lia. rewrite Seconds_plus. lra.
Qed.

Lemma NewLimiter_ok r b now :
  (0 <= r)%Q → 0 <= b → bucket_ok (NewLimiter r b now) now.
Proof.
  intros Hr Hb. split; simpl; [done| |lra|lia].
  change 0%Q with (inject_Z 0). by rewrite <- Zle_Qle.
Qed.

Lemma bucket_ok_later l c c' : bucket_ok l c → c <= c' → bucket_ok l c'.
Proof. intros [] ?. split; [done..|lia]. Qed.

(** The refill adds a non-negative amount and stops at the capacity. *)
Lemma refill_bounds l c now :
  bucket_ok l c → c <= now →
  (tokens l <= refill l now)%Q ∧ (refill l now <= inject_Z (capacity l))%Q.
Proof.
  intros [Hr Hlo Hhi Hc] Hnow. unfold refill.
  assert (0 <= Seconds (now - lastRefill l) * rate l)%Q as Hadd.
  { apply Qmult_le_0_compat; [apply Seconds_nonneg; lia | done]. }
  destruct (Qle_bool _ _) eqn:E.
  - split; [done | lra].
  - apply not_true_iff_false in E. rewrite Qle_bool_iff in E. split; lra.
Qed.

Lemma refill_eq l now :
  (refill l now ==
   Qmin (inject_Z (capacity l))
        (tokens l + Seconds (now - lastRefill l) * rate l))%Q.
Proof.
  unfold refill. destruct (Qle_bool _ _) eqn:E.
  - rewrite Qle_bool_iff in E. by rewrite Q.min_l.
  - apply not_true_iff_false in E. rewrite Qle_bool_iff in E.
    rewrite Q.min_r; [done | lra].
Qed.

Lemma refill_instant l :
  (tokens l <= inject_Z (capacity l))%Q →
  (refill l (lastRefill l) == tokens l)%Q.
Proof.
  intros Hhi. unfold refill. rewrite Z.sub_diag.
  assert (tokens l + Seconds 0 * rate l == tokens l)%Q as H0.
  { rewrite Seconds_0. ring. }
  destruct (Qle_bool _ _) eqn:E.
  - rewrite Qle_bool_iff in E. lra.
  - lra.
Qed.

Lemma Allow_verdict l now : (Allow l now).1 = Qle_bool 1 (refill l now).
Proof. unfold Allow. by destruct (Qle_bool 1 _). Qed.

Lemma Allow_tokens l now :
  (tokens (Allow l now).2 ==
   refill l now - (if (Allow l now).1 then 1 else 0))%Q.
Proof. unfold Allow. destruct (Qle_bool 1 _); simpl; lra. Qed.

Lemma Allow_fields l now :
  rate (Allow l now).2 = rate l ∧
  capacity (Allow l now).2 = capacity l ∧
  lastRefill (Allow l now).2 = now.
Proof. unfold Allow. by destruct (Qle_bool 1 _). Qed.

Lemma Allow_ok l c now :
  bucket_ok l c → c <= now → bucket_ok (Allow l now).2 now.
Proof.
  intros Hok Hnow. destruct (refill_bounds l c now Hok Hnow) as [Hlo Hhi].
  destruct Hok as [Hr Ht0 Ht1 Hc].
  pose proof (Allow_tokens l now) as Htok.
  pose proof (Allow_verdict l now) as Hv.
  destruct (Allow_fields l now) as (Er & Ec & El).
  split; rewrite ?Er, ?Ec, ?El; [done| | |lia].
  - destruct (Allow l now).1.
    + symmetry in Hv. rewrite Qle_bool_iff in Hv. lra.
    + lra.
  - destruct (Allow l now).1; lra.
Qed.

(** ** The registry operations in closed form *)

Lemma getVisitor_eq h rl ip now c :
  h !! config rl = Some c →
  getVisitor h rl ip now =
  Some (bucket_of c rl ip now,
        set_visitors
          (<[ip := {| limiter := bucket_of c rl ip now; lastSeen := now |}]>
             (visitors rl)) rl).
Proof.
  intros Hc. unfold getVisitor, bucket_of.
  destruct (visitors rl !! ip) as [v|]; [done|]. by rewrite Hc.
Qed.

Lemma Check_eq h rl ip tSeen tAllow c :
  h !! config rl = Some c →
  Check h rl ip tSeen tAllow =
  Some ((Allow (bucket_of c rl ip tSeen) tAllow).1,
        set_visitors
          (<[ip := {| limiter := (Allow (bucket_of c rl ip tSeen) tAllow).2;
                      lastSeen := tSeen |}]> (visitors rl)) rl).
Proof.
  intros Hc. unfold Check. rewrite (getVisitor_eq _ _ _ _ _ Hc). simpl.
  destruct (Allow _ _) as [ok l]. simpl.
  by rewrite alter_insert_eq.
Qed.

(** The map left by the deleting loop, entry by entry. *)
Lemma sweep_lookup (idle : visitor → bool) (m0 m : gmap string visitor) ip :
  map_fold (λ ip v acc, if idle v then delete ip acc else acc) m0 m !! ip =
  match m !! ip with
  | Some v => if idle v then None else m0 !! ip
  | None => m0 !! ip
  end.
Proof.
  revert ip.
  apply (map_fold_weak_ind
           (λ r m, ∀ ip, r !! ip = match m !! ip with
                                   | Some v => if idle v then None else m0 !! ip
                                   | None => m0 !! ip
                                   end)).
  - intros ip. by rewrite lookup_empty.
  - intros i x m' r Hi IH ip. destruct (decide (i = ip)) as [->|Hne].
    + rewrite lookup_insert_eq. destruct (idle x).
      * by rewrite lookup_delete_eq.
      * by rewrite IH, Hi.
    + rewrite lookup_insert_ne by done. destruct (idle x).
      * by rewrite lookup_delete_ne.
      * done.
Qed.

Lemma cleanupVisitors_eq h rl now c :
  h !! config rl = Some c →
  ∃ rl', cleanupVisitors h rl now = Some rl' ∧
         config rl' = config rl ∧
         ∀ ip, visitors rl' !! ip =
               match visitors rl !! ip with
               | Some v =>
                   if MaxIdleTime c <=? now - lastSeen v then None else Some v
               | None => None
               end.
Proof.
  intros Hc. unfold cleanupVisitors. rewrite Hc. simpl.
  eexists; split; [done|]. split; [done|]. intros ip. simpl.
  rewrite (sweep_lookup (λ v, MaxIdleTime c <=? now - lastSeen v)).
  by destruct (visitors rl !! ip).
Qed.

(** ** Bursts *)

Lemma Qle_bool_inject_Z (a b : Z) : Qle_bool (inject_Z a) (inject_Z b) = (a <=? b).
Proof.
  destruct (a <=? b) eqn:E.
  - apply Qle_bool_iff. rewrite <- Zle_Qle. lia.
  - apply not_true_iff_false. rewrite Qle_bool_iff, <- Zle_Qle. lia.
Qed.

Lemma Allow_instant l k :
  (tokens l == inject_Z k)%Q → k <= capacity l →
  (Allow l (lastRefill l)).1 = (1 <=? k) ∧
  (tokens (Allow l (lastRefill l)).2 ==
   inject_Z (if 1 <=? k then k - 1 else k))%Q.
Proof.
  intros Hk Hcap.
  assert (refill l (lastRefill l) == inject_Z k)%Q as Hr.
  { rewrite refill_instant; [done|]. rewrite Hk, <- Zle_Qle. lia. }
  assert ((Allow l (lastRefill l)).1 = (1 <=? k)) as Hv.
  { rewrite Allow_verdict, Hr. apply (Qle_bool_inject_Z 1 k). }
  split; [done|].
  rewrite Allow_tokens, Hv, Hr. destruct (1 <=? k).
  - replace (k - 1) with (k + -1) by lia. rewrite inject_Z_plus.
    change (inject_Z (-1)) with (-1)%Q. lra.
  - lra.
Qed.

Lemma Checks_instant n : ∀ (h : heap) rl ip t c v k,
  h !! config rl = Some c →
  visitors rl !! ip = Some v →
  lastRefill (limiter v) = t →
  (tokens (limiter v) == inject_Z k)%Q →
  0 <= k <= capacity (limiter v) →
  ∃ rl' v',
    Checks h rl ip (replicate n (t, t)) = Some (burst_verdicts n k, rl') ∧
    config rl' = config rl ∧
    visitors rl' !! ip = Some v' ∧
    rate (limiter v') = rate (limiter v) ∧
    capacity (limiter v') = capacity (limiter v) ∧
    lastRefill (limiter v') = t ∧
    (tokens (limiter v') == inject_Z (Z.max 0 (k - Z.of_nat n)))%Q.
Proof.
  induction n as [|n IH]; intros h rl ip t c v k Hc Hv Ht Hk Hcap.
  { exists rl, v. split_and!; try done.
    by replace (Z.max 0 (k - Z.of_nat 0)) with k by lia. }
  simpl. rewrite (Check_eq _ _ _ _ _ _ Hc). simpl.
  unfold bucket_of. rewrite Hv. subst t.
  destruct (Allow_instant (limiter v) k Hk ltac:(lia)) as [Everd Etok].
  destruct (Allow_fields (limiter v) (lastRefill (limiter v))) as (Er & Ecap & El).
  set (l' := (Allow (limiter v) (lastRefill (limiter v))).2) in *.
  set (rl1 := set_visitors _ rl).
  destruct (IH h rl1 ip (lastRefill (limiter v)) c
              {| limiter := l'; lastSeen := lastRefill (limiter v) |}
              (if 1 <=? k then k - 1 else k))
    as (rl' & v' & Hrun & Ec' & Hv' & Er' & Ecap' & El' & Etok').
  - done.
  - subst rl1. simpl. by rewrite lookup_insert_eq.
  - done.
  - done.
  - simpl. rewrite Ecap. destruct (Z.leb_spec 1 k); lia.
  - rewrite Hrun. simpl. exists rl', v'. simpl in Er', Ecap'.
    split_and!; [|done|done|congruence|congruence|done|].
    + do 2 f_equal. rewrite Everd.
      unfold burst_verdicts. destruct (Z.leb_spec 1 k).
      * replace (Z.to_nat k) with (S (Z.to_nat (k - 1))) by lia. done.
      * replace (Z.to_nat k) with 0%nat by lia.
        rewrite !Nat.min_0_r, !Nat.sub_0_r. done.
    + rewrite Etok'. apply inject_Z_injective.
      destruct (Z.leb_spec 1 k); lia.
Qed.

(** A burst of five checks at one instant empties a new bucket of
    capacity 5. *)
Lemma burst_exhausts (h : heap) rl c ip t :
  h !! config rl = Some c →
  visitors rl !! ip = None →
  Burst c = 5 →
  ∃ rl' v,
    Checks h rl ip (replicate 5 (t, t)) = Some (replicate 5 true, rl') ∧
    config rl' = config rl ∧
    visitors rl' !! ip = Some v ∧
    rate (limiter v) = Limit (RequestsPerSecond c) ∧
    capacity (limiter v) = 5 ∧
    lastRefill (limiter v) = t ∧
    (tokens (limiter v) == 0)%Q.
Proof.
  intros Hc Hfresh Hb.
  change (replicate 5 (t, t)) with ((t, t) :: replicate 4 (t, t)).
  remember (replicate 4 (t, t)) as ts eqn:Ets.
  cbn [Checks]. rewrite (Check_eq _ _ _ _ _ _ Hc). simpl.
  unfold bucket_of. rewrite Hfresh. subst ts.
  set (l0 := NewLimiter (Limit (RequestsPerSecond c)) (Burst c) t).
  destruct (Allow_instant l0 5) as [Everd Etok].
  { simpl. by rewrite Hb. }
  { simpl. lia. }
  destruct (Allow_fields l0 t) as (Er & Ecap & El).
  change (lastRefill l0) with t in Everd, Etok.
  set (rl1 := set_visitors _ rl).
  destruct (Checks_instant 4 h rl1 ip t c
              {| limiter := (Allow l0 t).2; lastSeen := t |} 4)
    as (rl' & v' & Hrun & Ec' & Hv' & Er' & Ecap' & El' & Etok').
  - done.
  - subst rl1. simpl. by rewrite lookup_insert_eq.
  - done.
  - done.
  - simpl. rewrite Ecap. simpl. lia.
  - rewrite Hrun. simpl. rewrite Everd. exists rl', v'.
    simpl in Er', Ecap'. split_and!; try done.
    + by rewrite Er', Er.
    + by rewrite Ecap', Ecap.
Qed.

(** [C1] Burst admission.  For a key the registry has not seen, the entry
    made by [getVisitor] holds a bucket whose tokens equal its capacity, the
    configured burst; and with a burst of 5, six admission checks whose
    clock readings all coincide answer true five times and then false. *)
Theorem burst_admission h rl c ip t :
  h !! config rl = Some c →
  visitors rl !! ip = None →
  (∃ l rl', getVisitor h rl ip t = Some (l, rl') ∧
            visitors rl' !! ip = Some {| limiter := l; lastSeen := t |} ∧
            capacity l = Burst c ∧
            tokens l = inject_Z (capacity l)) ∧
  (Burst c = 5 →
   ∃ rl', Checks h rl ip (replicate 6 (t, t)) =
          Some ([true; true; true; true; true; false], rl')).
Proof.
  intros Hc Hfresh. split.
  - rewrite (getVisitor_eq _ _ _ _ _ Hc). unfold bucket_of. rewrite Hfresh.
    eexists _, _. split; [done|]. simpl. by rewrite lookup_insert_eq.
  - intros Hb.
    change (replicate 6 (t, t)) with ((t, t) :: replicate 5 (t, t)).
    remember (replicate 5 (t, t)) as ts eqn:Ets.
    cbn [Checks]. rewrite (Check_eq _ _ _ _ _ _ Hc). simpl.
    unfold bucket_of. rewrite Hfresh. subst ts.
    set (l0 := NewLimiter (Limit (RequestsPerSecond c)) (Burst c) t).
    destruct (Allow_instant l0 5) as [Everd Etok].
    { simpl. by rewrite Hb. }
    { simpl. lia. }
    destruct (Allow_fields l0 t) as (_ & Ecap & El).
    change (lastRefill l0) with t in Everd, Etok.
    set (rl1 := set_visitors _ rl).
    destruct (Checks_instant 5 h rl1 ip t c
                {| limiter := (Allow l0 t).2; lastSeen := t |} 4)
      as (rl' & _ & Hrun & _).
    + done.
    + subst rl1. simpl. by rewrite lookup_insert_eq.
    + done.
    + done.
    + simpl. rewrite Ecap. simpl. lia.
    + rewrite Hrun. simpl. rewrite Everd. by exists rl'.
Qed.

Lemma burst_admission_witness :
  ∃ rl', Checks heap0 empty_registry "10.0.0.1" (replicate 6 (0, 0)) =
         Some ([true; true; true; true; true; false], rl').
Proof.
  apply (burst_admission heap0 empty_registry defaults "10.0.0.1" 0);
    reflexivity.
Defined.

(** ** The token bounds *)

Lemma bucket_of_ok rl c ip clock tSeen :
  (0 <= Limit (RequestsPerSecond c))%Q → 0 <= Burst c →
  entry_ok rl ip clock → clock <= tSeen →
  bucket_ok (bucket_of c rl ip tSeen) tSeen.
Proof.
  intros Hr Hb Hok Hclock. unfold bucket_of.
  destruct (visitors rl !! ip) as [v|] eqn:Hv.
  - eapply bucket_ok_later; [by apply Hok | done].
  - by apply NewLimiter_ok.
Qed.

Lemma Check_entry_ok h rl c ip clock tSeen tAllow :
  h !! config rl = Some c →
  (0 <= Limit (RequestsPerSecond c))%Q → 0 <= Burst c →
  entry_ok rl ip clock → clock <= tSeen → tSeen <= tAllow →
  ∃ ok rl', Check h rl ip tSeen tAllow = Some (ok, rl') ∧
            config rl' = config rl ∧ entry_ok rl' ip tAllow.
Proof.
  intros Hc Hr Hb Hok H1 H2. rewrite (Check_eq _ _ _ _ _ _ Hc).
  eexists _, _. split; [done|]. split; [done|].
  intros v. simpl. rewrite lookup_insert_eq. intros [= <-]. simpl.
  eapply Allow_ok; [|done]. by eapply bucket_of_ok.
Qed.

Lemma Checks_entry_ok ts : ∀ h rl c ip clock,
  h !! config rl = Some c →
  (0 <= Limit (RequestsPerSecond c))%Q → 0 <= Burst c →
  entry_ok rl ip clock → clock_from clock ts →
  ∃ oks rl' clock', Checks h rl ip ts = Some (oks, rl') ∧
                    length oks = length ts ∧
                    config rl' = config rl ∧
                    clock <= clock' ∧ entry_ok rl' ip clock'.
Proof.
  induction ts as [|[tSeen tAllow] ts IH]; intros h rl c ip clock Hc Hr Hb Hok Hts.
  { exists [], rl, clock. split_and!; [done..|lia|done]. }
  destruct Hts as (H1 & H2 & Hts).
  destruct (Check_entry_ok h rl c ip clock tSeen tAllow) as (ok & rl1 & E1 & Ec1 & Hok1);
    [done..|].
  destruct (IH h rl1 c ip tAllow) as (oks & rl' & clock' & E & Hlen & Ec & Hle & Hok');
    [by rewrite Ec1|done..|].
  exists (ok :: oks), rl', clock'. cbn [Checks]. rewrite E1. simpl. rewrite E. simpl.
  split_and!; [done|by rewrite Hlen|congruence|lia|done].
Qed.

Lemma clock_from_take c ts n : clock_from c ts → clock_from c (take n ts).
Proof.
  revert c n. induction ts as [|[t1 t2] ts IH]; intros c [|n]; simpl; try done.
  intros (? & ? & ?). auto.
Qed.

(** [C2] Token cap.  On a registry whose configuration has a non-negative
    rate and burst and whose bucket for the key, if any, is within its
    bounds, every sequence of admission checks for the key with a clock that
    does not run backwards runs to completion, and after each of its
    prefixes the tokens of the bucket lie between 0 and the capacity.  A
    single check moves the tokens from [tokens] to the refilled amount,
    [min (capacity, tokens + elapsed * rate)], which is at least [tokens],
    and takes exactly one token from it when it answers true and none when
    it answers false; it answers true exactly when the refilled amount is
    at least 1. *)
Theorem token_cap h rl c ip clock :
  h !! config rl = Some c →
  (0 <= Limit (RequestsPerSecond c))%Q → 0 <= Burst c →
  entry_ok rl ip clock →
  (∀ ts n, clock_from clock ts →
     ∃ oks rl', Checks h rl ip (take n ts) = Some (oks, rl') ∧
       ∀ v, visitors rl' !! ip = Some v →
            (0 <= tokens (limiter v))%Q ∧
            (tokens (limiter v) <= inject_Z (capacity (limiter v)))%Q) ∧
  (∀ v tSeen tAllow,
     visitors rl !! ip = Some v → clock <= tSeen → tSeen <= tAllow →
     let r := refill (limiter v) tAllow in
     ∃ ok rl' v',
       Check h rl ip tSeen tAllow = Some (ok, rl') ∧
       visitors rl' !! ip = Some v' ∧
       capacity (limiter v') = capacity (limiter v) ∧
       (r == Qmin (inject_Z (capacity (limiter v)))
                  (tokens (limiter v)
                   + Seconds (tAllow - lastRefill (limiter v)) * rate (limiter v)))%Q ∧
       (tokens (limiter v) <= r)%Q ∧
       (ok = true ↔ (1 <= r)%Q) ∧
       (tokens (limiter v') == if ok then r - 1 else r)%Q).
Proof.
  intros Hc Hr Hb Hok. split.
  - intros ts n Hts.
    destruct (Checks_entry_ok (take n ts) h rl c ip clock)
      as (oks & rl' & clock' & E & _ & _ & _ & Hok');
      [done..|by apply clock_from_take|].
    exists oks, rl'. split; [done|]. intros v Hv.
    destruct (Hok' v Hv). done.
  - intros v tSeen tAllow Hv H1 H2 r.
    rewrite (Check_eq _ _ _ _ _ _ Hc). unfold bucket_of. rewrite Hv.
    eexists _, _, _. split; [done|]. simpl. rewrite lookup_insert_eq.
    split; [done|]. simpl.
    destruct (Allow_fields (limiter v) tAllow) as (_ & Ecap & _).
    split; [done|]. split; [apply refill_eq|].
    destruct (refill_bounds (limiter v) clock tAllow) as [Hlo _];
      [by apply Hok | lia |].
    split; [done|]. split.
    + rewrite Allow_verdict. apply Qle_bool_iff.
    + rewrite Allow_tokens. fold r. destruct (Allow _ _).1; lra.
Qed.

Lemma token_cap_witness :
  ∃ oks rl',
    Checks heap0 spent_registry "10.0.0.1"
           (take 2 [(0, 0); (Second, 2 * Second); (7 * Second, 7 * Second)]) =
    Some (oks, rl') ∧
    ∀ v, visitors rl' !! "10.0.0.1" = Some v →
         (0 <= tokens (limiter v))%Q ∧
         (tokens (limiter v) <= inject_Z (capacity (limiter v)))%Q.
Proof.
  refine (proj1 (token_cap heap0 spent_registry defaults "10.0.0.1" 0 _ _ _ _)
                [(0, 0); (Second, 2 * Second); (7 * Second, 7 * Second)] 2%nat _).
  - reflexivity.
  - by vm_compute.
  - by vm_compute.
  - intros v Hv. simpl in Hv. rewrite lookup_singleton_eq in Hv.
    injection Hv as <-. split; simpl; [by vm_compute..|lia].
  - simpl. unfold Second, Nanosecond. lia.
Defined.

(** ** Refill *)

(** Refilling in two stages gives what refilling once does: a check that
    takes no token leaves later checks what they would have found. *)
Lemma refill_lossless l clock t1 t2 :
  bucket_ok l clock → clock <= t1 → t1 <= t2 →
  lastRefill (Allow l t1).2 = t1 ∧
  ((Allow l t1).1 = false →
   (refill (Allow l t1).2 t2 == refill l t2)%Q).
Proof.
  intros [Hr Hlo Hhi Hc] H1 H2.
  destruct (Allow_fields l t1) as (Er & Ec & El). split; [done|].
  intros Hrej.
  pose proof (Allow_tokens l t1) as Htok. rewrite Hrej in Htok.
  unfold refill at 1. rewrite Er, Ec, El.
  assert (0 <= Seconds (t1 - lastRefill l) * rate l)%Q as Hs1.
  { apply Qmult_le_0_compat; [apply Seconds_nonneg; lia | done]. }
  assert (0 <= Seconds (t2 - t1) * rate l)%Q as Hs2.
  { apply Qmult_le_0_compat; [apply Seconds_nonneg; lia | done]. }
  assert (Seconds (t2 - lastRefill l) * rate l ==
          Seconds (t1 - lastRefill l) * rate l + Seconds (t2 - t1) * rate l)%Q
    as Hsum.
  { replace (t2 - lastRefill l) with ((t1 - lastRefill l) + (t2 - t1)) by lia.
    rewrite Seconds_plus. ring. }
  revert Htok. unfold refill.
  destruct (Qle_bool _ (tokens l + Seconds (t1 - _) * _)) eqn:E1;
    destruct (Qle_bool _ (tokens l + Seconds (t2 - _) * _)) eqn:E2;
    destruct (Qle_bool _ (tokens (Allow l t1).2 + _)) eqn:E3;
    intros Htok;
    repeat match goal with
      | H : Qle_bool _ _ = true |- _ => rewrite Qle_bool_iff in H
      | H : Qle_bool _ _ = false |- _ =>
          apply not_true_iff_false in H; rewrite Qle_bool_iff in H
      end; lra.
Qed.

(** An emptied bucket of rate 1 and capacity 5, checked once a second or
    more after it was last refilled and then once more. *)
Lemma Allow_after_wait l t1 t2 :
  (rate l == 1)%Q → capacity l = 5 →
  (0 <= tokens l)%Q → (tokens l < 1)%Q →
  lastRefill l + Second <= t1 → t1 <= t2 →
  (Allow l t1).1 = true ∧
  ((Allow (Allow l t1).2 t2).1 = true ↔
   (2 <= tokens l + Seconds (t2 - lastRefill l))%Q).
Proof.
  intros Hrate Hcap Hlo Hhi H1 H2.
  destruct (Allow_fields l t1) as (Er & Ec & El).
  assert (1 <= Seconds (t1 - lastRefill l))%Q as Hs1.
  { rewrite <- Seconds_Second. apply Seconds_le. lia. }
  assert (0 <= Seconds (t2 - t1))%Q as Hs2 by (apply Seconds_nonneg; lia).
  assert (Seconds (t2 - lastRefill l) ==
          Seconds (t1 - lastRefill l) + Seconds (t2 - t1))%Q as Hsum.
  { replace (t2 - lastRefill l) with ((t1 - lastRefill l) + (t2 - t1)) by lia.
    apply Seconds_plus. }
  assert (Seconds (t1 - lastRefill l) * rate l == Seconds (t1 - lastRefill l))%Q
    as Hp1 by (rewrite Hrate; ring).
  assert (Seconds (t2 - t1) * rate l == Seconds (t2 - t1))%Q
    as Hp2 by (rewrite Hrate; ring).
  assert (1 <= refill l t1)%Q as Hfirst.
  { unfold refill. rewrite Hcap. destruct (Qle_bool _ _); [by vm_compute | lra]. }
  assert ((Allow l t1).1 = true) as Hv1.
  { rewrite Allow_verdict. by apply Qle_bool_iff. }
  split; [done|].
  pose proof (Allow_tokens l t1) as Htok. rewrite Hv1 in Htok.
  rewrite Allow_verdict, Qle_bool_iff.
  unfold refill at 1. rewrite Er, Ec, El, Hcap.
  revert Htok Hfirst. unfold refill. rewrite Hcap.
  assert (inject_Z 5 == 5)%Q as H5 by done.
  destruct (Qle_bool _ (tokens l + _)) eqn:E1;
    destruct (Qle_bool _ (tokens (Allow l t1).2 + _)) eqn:E3;
    intros Htok Hfirst;
    repeat match goal with
      | H : Qle_bool _ _ = true |- _ => rewrite Qle_bool_iff in H
      | H : Qle_bool _ _ = false |- _ =>
          apply not_true_iff_false in H; rewrite Qle_bool_iff in H
      end; split; intros; lra.
Qed.

(** Checks made before the bucket has gathered one token are all refused. *)
Lemma Checks_rejected ts : ∀ (h : heap) rl c ip v,
  h !! config rl = Some c →
  visitors rl !! ip = Some v →
  Forall (λ p, (tokens (limiter v)
                + Seconds (p.2 - lastRefill (limiter v)) * rate (limiter v)
                < 1)%Q) ts →
  ∃ rl', Checks h rl ip ts = Some (replicate (length ts) false, rl').
Proof.
  induction ts as [|[tSeen tAllow] ts IH]; intros h rl c ip v Hc Hv Hall.
  { by eexists. }
  apply Forall_cons in Hall as [Hhd Htl]. simpl in Hhd.
  cbn [Checks]. rewrite (Check_eq _ _ _ _ _ _ Hc). simpl.
  unfold bucket_of. rewrite Hv.
  set (l := limiter v) in *.
  assert (refill l tAllow <= tokens l + Seconds (tAllow - lastRefill l) * rate l)%Q
    as Hle.
  { unfold refill. destruct (Qle_bool _ _) eqn:E; [|lra].
    by apply Qle_bool_iff in E. }
  assert ((Allow l tAllow).1 = false) as Hverd.
  { rewrite Allow_verdict. apply Qle_bool_false. lra. }
  pose proof (Allow_tokens l tAllow) as Htok. rewrite Hverd in Htok.
  destruct (Allow_fields l tAllow) as (Er & _ & El).
  set (rl1 := set_visitors _ rl).
  destruct (IH h rl1 c ip {| limiter := (Allow l tAllow).2; lastSeen := tSeen |})
    as [rl' Hrun].
  - done.
  - subst rl1. simpl. by rewrite lookup_insert_eq.
  - eapply Forall_impl; [exact Htl|]. intros [t1 t2] Hp. simpl in *.
    rewrite Er, El.
    assert (Seconds (t2 - lastRefill l) * rate l ==
            Seconds (tAllow - lastRefill l) * rate l
            + Seconds (t2 - tAllow) * rate l)%Q as Hsum.
    { replace (t2 - lastRefill l) with ((tAllow - lastRefill l) + (t2 - tAllow))
        by lia.
      rewrite Seconds_plus. ring. }
    lra.
  - rewrite Hrun, Hverd. simpl. by exists rl'.
Qed.

(** [C3] Refill.  Take a bucket of rate 1 per second and capacity 5 that
    has been emptied: it holds less than one token.  A check made one
    second or more after its last refill answers true.  The check after
    that one answers true exactly when the tokens held at the start plus
    the whole time elapsed since then amount to two tokens; as long as they
    do not, every further check is refused: with an empty bucket and less
    than two seconds of waiting in all, exactly one check succeeds.  Every
    check sets the time of the last refill to its own clock reading, and a
    check that is refused leaves later checks the tokens they would have
    found without it, so no elapsed time is counted twice or dropped. *)
Theorem refill_after_exhaustion (h : heap) rl c ip v :
  h !! config rl = Some c →
  visitors rl !! ip = Some v →
  (rate (limiter v) == 1)%Q → capacity (limiter v) = 5 →
  (0 <= tokens (limiter v))%Q → (tokens (limiter v) < 1)%Q →
  (∀ tSeen tAllow,
     lastRefill (limiter v) + Second <= tAllow →
     ∃ rl1, Check h rl ip tSeen tAllow = Some (true, rl1) ∧
       (∀ tSeen' tAllow', tAllow <= tAllow' →
          ∃ ok rl2, Check h rl1 ip tSeen' tAllow' = Some (ok, rl2) ∧
            (ok = true ↔
             (2 <= tokens (limiter v)
                   + Seconds (tAllow' - lastRefill (limiter v)))%Q)) ∧
       (∀ ts,
          Forall (λ p, (tokens (limiter v)
                        + Seconds (p.2 - lastRefill (limiter v)) < 2)%Q) ts →
          ∃ rl2, Checks h rl1 ip ts =
                 Some (replicate (length ts) false, rl2))) ∧
  (∀ tSeen tAllow tNext,
     lastRefill (limiter v) <= tAllow → tAllow <= tNext →
     ∃ ok rl1 v1, Check h rl ip tSeen tAllow = Some (ok, rl1) ∧
       visitors rl1 !! ip = Some v1 ∧
       lastRefill (limiter v1) = tAllow ∧
       (ok = false →
        (refill (limiter v1) tNext == refill (limiter v) tNext)%Q)).
Proof.
  intros Hc Hv Hrate Hcap Hlo Hhi. split.
  - intros tSeen tAllow Hwait.
    rewrite (Check_eq _ _ _ _ _ _ Hc). unfold bucket_of. rewrite Hv.
    destruct (Allow_after_wait (limiter v) tAllow tAllow) as [Hv1 _];
      [done..|lia|].
    rewrite Hv1. eexists. split; [done|]. split.
    + intros tSeen' tAllow' Hnext.
      rewrite (Check_eq _ _ _ _ _ c) by done. unfold bucket_of. simpl.
      rewrite lookup_insert_eq. simpl. eexists _, _. split; [done|].
      by apply Allow_after_wait.
    + intros ts Hall.
      eapply (Checks_rejected ts h _ c ip); [done| |].
      { simpl. by rewrite lookup_insert_eq. }
      eapply Forall_impl; [exact Hall|]. intros [t1 t2] Hp. simpl in *.
      set (l := limiter v) in *.
      destruct (Allow_fields l tAllow) as (Er & _ & El).
      pose proof (Allow_tokens l tAllow) as Htok. rewrite Hv1 in Htok.
      rewrite Er, El.
      assert (refill l tAllow <= tokens l + Seconds (tAllow - lastRefill l))%Q
        as Hle.
      { unfold refill.
        assert (Seconds (tAllow - lastRefill l) * rate l ==
                Seconds (tAllow - lastRefill l))%Q as Hp1
          by (rewrite Hrate; ring).
        destruct (Qle_bool _ _) eqn:E; [|lra].
        apply Qle_bool_iff in E. lra. }
      assert (Seconds (t2 - tAllow) * rate l == Seconds (t2 - tAllow))%Q as Hp2
        by (rewrite Hrate; ring).
      assert (Seconds (t2 - lastRefill l) ==
              Seconds (tAllow - lastRefill l) + Seconds (t2 - tAllow))%Q as Hsum.
      { replace (t2 - lastRefill l) with ((tAllow - lastRefill l) + (t2 - tAllow))
          by lia.
        apply Seconds_plus. }
      lra.
  - intros tSeen tAllow tNext H1 H2.
    rewrite (Check_eq _ _ _ _ _ _ Hc). unfold bucket_of. rewrite Hv.
    eexists _, _, _. split; [done|]. simpl. rewrite lookup_insert_eq.
    split; [done|]. simpl.
    apply (refill_lossless _ (lastRefill (limiter v))); [|lia|done].
    split; [|done| |lia].
    + rewrite Hrate. by vm_compute.
    + rewrite Hcap. assert (inject_Z 5 == 5)%Q by done. lra.
Qed.

Lemma refill_after_exhaustion_witness :
  ∃ rl1, Check heap0 spent_registry "10.0.0.1" Second Second = Some (true, rl1) ∧
    ∃ rl2, Checks heap0 rl1 "10.0.0.1"
             [(Second, Second); (Second + 1, Second + 2)] =
           Some ([false; false], rl2).
Proof.
  destruct (proj1 (refill_after_exhaustion heap0 spent_registry defaults
                     "10.0.0.1" spent_visitor
                     eq_refl eq_refl (Qeq_refl 1) eq_refl
                     (Qle_refl 0) eq_refl)
                  Second Second) as (rl1 & E1 & _ & Hnext).
  - simpl. lia.
  - exists rl1. split; [exact E1|].
    apply (Hnext [(Second, Second); (Second + 1, Second + 2)]).
    repeat constructor; by vm_compute.
Defined.

(** ** Construction *)

(** [Validate] field by field. *)
Lemma Config_Validate_proj c :
  RequestsPerSecond (Config_Validate c) =
    (if f64_leb (RequestsPerSecond c) (Finite 0)
     then Finite 1 else RequestsPerSecond c) ∧
  Burst (Config_Validate c) = (if Burst c <=? 0 then 5 else Burst c) ∧
  CleanupInterval (Config_Validate c) =
    (if CleanupInterval c <? Second then Minute else CleanupInterval c) ∧
  MaxIdleTime (Config_Validate c) =
    (if MaxIdleTime c <? Second then 3 * Minute else MaxIdleTime c).
Proof.
  destruct c as [r b ci mi]. unfold Config_Validate. simpl.
  destruct (f64_leb r (Finite 0)); simpl; destruct (b <=? 0); simpl;
    destruct (ci <? Second); simpl; destruct (mi <? Second); done.
Qed.

Ltac case_guards :=
  repeat match goal with
    | |- context [f64_leb ?x ?y] =>
        let E := fresh "E" in destruct (f64_leb x y) eqn:E
    | |- context [?x <=? ?y] => destruct (Z.leb_spec x y)
    | |- context [?x <? ?y] => destruct (Z.ltb_spec x y)
    end.

Ltac solve_fields :=
  unfold f64_le in *; intros; try done; try congruence;
  try (unfold Minute, Second, Nanosecond in *; lia).

(** After [Validate] none of its tests fires any more. *)
Lemma Config_Validate_settled c : settled (Config_Validate c).
Proof.
  unfold settled. destruct (Config_Validate_proj c) as (-> & -> & -> & ->).
  case_guards; split_and!; solve_fields.
Qed.

(** A rate on which the first test does not fire is positive, unless it is
    not a number. *)
Lemma f64_not_le_0 r :
  ¬ f64_le r (Finite 0) → r ≠ NaN → f64_lt (Finite 0) r.
Proof.
  unfold f64_le, f64_lt.
  destruct r as [|[]|q]; simpl; try done.
  intros H _. by destruct (Qle_bool q 0).
Qed.

Lemma f64_lt_0_not_le r : f64_lt (Finite 0) r → ¬ f64_le r (Finite 0).
Proof.
  unfold f64_le, f64_lt.
  destruct r as [|[]|q]; simpl; try done.
  by destruct (Qle_bool q 0).
Qed.

Lemma valid_settled c : valid c → settled c.
Proof.
  intros (Hr & Hb & Hci & Hmi). split_and!; [by apply f64_lt_0_not_le|lia|done..].
Qed.

Lemma settled_valid c : settled c → RequestsPerSecond c ≠ NaN → valid c.
Proof.
  intros (Hr & Hb & Hci & Hmi) Hnan.
  split_and!; [by apply f64_not_le_0|lia|done..].
Qed.

Lemma Config_Validate_fields c :
  (f64_le (RequestsPerSecond c) (Finite 0) →
   RequestsPerSecond (Config_Validate c) = Finite 1) ∧
  (¬ f64_le (RequestsPerSecond c) (Finite 0) →
   RequestsPerSecond (Config_Validate c) = RequestsPerSecond c) ∧
  (Burst c <= 0 → Burst (Config_Validate c) = 5) ∧
  (0 < Burst c → Burst (Config_Validate c) = Burst c) ∧
  (CleanupInterval c < Second →
   CleanupInterval (Config_Validate c) = 60 * Second) ∧
  (Second <= CleanupInterval c →
   CleanupInterval (Config_Validate c) = CleanupInterval c) ∧
  (MaxIdleTime c < Second → MaxIdleTime (Config_Validate c) = 180 * Second) ∧
  (Second <= MaxIdleTime c → MaxIdleTime (Config_Validate c) = MaxIdleTime c).
Proof.
  destruct (Config_Validate_proj c) as (-> & -> & -> & ->).
  case_guards; split_and!; solve_fields.
Qed.

Lemma Config_eq c c' :
  RequestsPerSecond c = RequestsPerSecond c' → Burst c = Burst c' →
  CleanupInterval c = CleanupInterval c' → MaxIdleTime c = MaxIdleTime c' →
  c = c'.
Proof. destruct c, c'. simpl. by intros -> -> -> ->. Qed.

Lemma Config_Validate_settled_id c : settled c → Config_Validate c = c.
Proof.
  intros (Hr & Hb & Hci & Hmi).
  destruct (Config_Validate_proj c) as (E1 & E2 & E3 & E4).
  apply Config_eq; [rewrite E1 | rewrite E2 | rewrite E3 | rewrite E4];
    case_guards; solve_fields.
Qed.

Lemma Config_Validate_valid_id c : valid c → Config_Validate c = c.
Proof. intros Hv. by apply Config_Validate_settled_id, valid_settled. Qed.

(** A rate that is not a number goes through [Validate] as it is. *)
Lemma Config_Validate_NaN c :
  RequestsPerSecond c = NaN → RequestsPerSecond (Config_Validate c) = NaN.
Proof.
  intros Hnan. destruct (Config_Validate_proj c) as (-> & _).
  by rewrite Hnan.
Qed.

(** With a rate that is a number, [Validate] leaves a valid
    configuration. *)
Lemma Config_Validate_valid c :
  RequestsPerSecond c ≠ NaN → valid (Config_Validate c).
Proof.
  intros Hnan. apply settled_valid; [apply Config_Validate_settled|].
  destruct (Config_Validate_proj c) as (-> & _).
  by destruct (f64_leb _ _).
Qed.

Lemma Config_Validate_all_invalid c :
  f64_le (RequestsPerSecond c) (Finite 0) → Burst c <= 0 →
  CleanupInterval c < Second → MaxIdleTime c < Second →
  Config_Validate c = defaults.
Proof.
  intros Hr Hb Hci Hmi.
  destruct (Config_Validate_proj c) as (E1 & E2 & E3 & E4).
  apply Config_eq; [rewrite E1 | rewrite E2 | rewrite E3 | rewrite E4];
    case_guards; solve_fields.
Qed.

Lemma New_Some (h : heap) p c0 :
  h !! p = Some c0 →
  New (Some p) h =
  Some ({| config := p; visitors := ∅ |}, <[p := Config_Validate c0]> h).
Proof. intros Hp. unfold New, Validate. by rewrite Hp. Qed.

Lemma New_nil (h : heap) :
  New None h =
  Some ({| config := fresh (dom h); visitors := ∅ |},
        <[fresh (dom h) := defaults]> h).
Proof.
  unfold New, DefaultConfig, Validate. rewrite lookup_insert_eq. simpl.
  by rewrite insert_insert_eq.
Qed.

(** The answers depend on the configuration only through its value. *)
Lemma step_same (h1 h2 : heap) rl1 rl2 c e :
  h1 !! config rl1 = Some c → h2 !! config rl2 = Some c →
  visitors rl1 = visitors rl2 →
  ∃ o rl1' rl2',
    step h1 rl1 e = Some (o, rl1') ∧ step h2 rl2 e = Some (o, rl2') ∧
    config rl1' = config rl1 ∧ config rl2' = config rl2 ∧
    visitors rl1' = visitors rl2'.
Proof.
  intros H1 H2 Hvis. destruct e as [ip tSeen tAllow | now]; simpl.
  - rewrite (Check_eq _ _ _ _ _ _ H1), (Check_eq _ _ _ _ _ _ H2). simpl.
    unfold bucket_of. rewrite Hvis. by eexists _, _, _.
  - unfold cleanupVisitors. rewrite H1, H2. simpl. rewrite Hvis.
    by eexists _, _, _.
Qed.

Lemma run_same (h1 h2 : heap) rl1 rl2 c :
  h1 !! config rl1 = Some c → h2 !! config rl2 = Some c →
  visitors rl1 = visitors rl2 →
  same_behaviour h1 rl1 h2 rl2.
Proof.
  intros H1 H2 Hvis es. revert rl1 rl2 H1 H2 Hvis.
  induction es as [|e es IH]; intros rl1 rl2 H1 H2 Hvis; [done|].
  destruct (step_same h1 h2 rl1 rl2 c e H1 H2 Hvis)
    as (o & rl1' & rl2' & E1 & E2 & Ec1 & Ec2 & Hvis').
  cbn [run]. rewrite E1, E2. simpl.
  specialize (IH rl1' rl2').
  rewrite Ec1, Ec2 in IH. specialize (IH H1 H2 Hvis').
  destruct (run h1 rl1' es) as [[os1 r1]|], (run h2 rl2' es) as [[os2 r2]|];
    simpl in *; congruence.
Qed.

Lemma first_Check_true (h : heap) rl c ip tSeen tAllow :
  h !! config rl = Some c →
  (0 <= Limit (RequestsPerSecond c))%Q → 1 <= Burst c →
  visitors rl !! ip = None → tSeen <= tAllow →
  ∃ rl', Check h rl ip tSeen tAllow = Some (true, rl') ∧
         ∃ v, visitors rl' !! ip = Some v ∧
              (tokens (limiter v) == inject_Z (Burst c) - 1)%Q.
Proof.
  intros Hc Hr Hb Hfresh Ht. rewrite (Check_eq _ _ _ _ _ _ Hc).
  unfold bucket_of. rewrite Hfresh.
  set (l := NewLimiter (Limit (RequestsPerSecond c)) (Burst c) tSeen).
  assert (bucket_ok l tSeen) as Hok by (apply NewLimiter_ok; [done|lia]).
  destruct (refill_bounds l tSeen tAllow Hok Ht) as [Hlo Hhi]. simpl in Hlo, Hhi.
  assert (1 <= inject_Z (Burst c))%Q as Hone.
  { change 1%Q with (inject_Z 1). by rewrite <- Zle_Qle. }
  assert ((Allow l tAllow).1 = true) as Hv.
  { rewrite Allow_verdict. apply Qle_bool_iff. lra. }
  rewrite Hv. eexists. split; [done|]. eexists. simpl.
  rewrite lookup_insert_eq. split; [done|]. simpl.
  rewrite Allow_tokens, Hv. lra.
Qed.

(** [C4] A rate that is not a number is not normalised.  The test
    [RequestsPerSecond <= 0] of [Validate] is false for it, so [New]
    succeeds and the limiter reads a configuration whose rate is still not
    a number: the configuration is not valid, and when its other fields
    are in range the store is exactly as the caller left it. *)
Theorem New_keeps_NaN (h : heap) p c0 :
  h !! p = Some c0 →
  RequestsPerSecond c0 = NaN →
  ∃ rl h' c',
    New (Some p) h = Some (rl, h') ∧
    h' !! config rl = Some c' ∧
    RequestsPerSecond c' = NaN ∧
    ¬ f64_lt (Finite 0) (RequestsPerSecond c') ∧
    ¬ valid c' ∧
    RequestsPerSecond c' ≠ RequestsPerSecond defaults ∧
    (0 < Burst c0 → Second <= CleanupInterval c0 → Second <= MaxIdleTime c0 →
     h' = h).
Proof.
  intros Hp Hnan. rewrite (New_Some h p c0 Hp).
  pose proof (Config_Validate_NaN c0 Hnan) as Hkept.
  eexists _, _, (Config_Validate c0). split; [done|]. simpl.
  split_and!.
  - by rewrite lookup_insert_eq.
  - done.
  - by rewrite Hkept.
  - intros (Hr & _). by rewrite Hkept in Hr.
  - by rewrite Hkept.
  - intros Hb Hci Hmi. rewrite (Config_Validate_settled_id c0).
    + by apply insert_id.
    + split_and!; try done. by rewrite Hnan.
Qed.

Lemma New_keeps_NaN_witness :
  ∃ rl, New (Some 1%positive) heap_nan = Some (rl, heap_nan) ∧
        ∃ c', heap_nan !! config rl = Some c' ∧ RequestsPerSecond c' = NaN.
Proof.
  destruct (New_keeps_NaN heap_nan 1%positive nan_config eq_refl eq_refl)
    as (rl & h' & c' & HNew & Hc' & Hnan & _ & _ & _ & Hsame).
  assert (h' = heap_nan) as ->.
  { apply Hsame; by vm_compute. }
  exists rl. split; [exact HNew|]. exists c'. split; [exact Hc' | exact Hnan].
Defined.

(** [X16] Construction with a rate that is a number.  [New] returns a
    limiter for a nil configuration and for every configuration it is given
    a pointer to whose rate is a number.  The configuration the limiter
    then reads satisfies all four constraints; each field that violated its
    constraint holds the default (rate 1, burst 5, cleanup interval 60 s,
    idle time 180 s) and each other field is as supplied.  For a nil
    configuration, for one whose four fields are all invalid and for the
    default configuration itself, it is the default configuration, and the
    limiter then answers every history as a limiter built on the explicit
    default values does.  The limiter never rejects everything: the first
    check for any key answers true. *)
Theorem construction_normalizes (h : heap) cfg :
  (∀ p, cfg = Some p → ∃ c0, h !! p = Some c0 ∧ RequestsPerSecond c0 ≠ NaN) →
  defaults = {| RequestsPerSecond := Finite 1; Burst := 5;
                CleanupInterval := 60 * Second;
                MaxIdleTime := 180 * Second |} ∧
  ∃ rl h' c',
    New cfg h = Some (rl, h') ∧ visitors rl = ∅ ∧
    h' !! config rl = Some c' ∧ valid c' ∧
    (cfg = None → c' = defaults) ∧
    (∀ p c0, cfg = Some p → h !! p = Some c0 →
       (f64_le (RequestsPerSecond c0) (Finite 0) →
        RequestsPerSecond c' = Finite 1) ∧
       (f64_lt (Finite 0) (RequestsPerSecond c0) →
        RequestsPerSecond c' = RequestsPerSecond c0) ∧
       (Burst c0 <= 0 → Burst c' = 5) ∧
       (0 < Burst c0 → Burst c' = Burst c0) ∧
       (CleanupInterval c0 < Second → CleanupInterval c' = 60 * Second) ∧
       (Second <= CleanupInterval c0 → CleanupInterval c' = CleanupInterval c0) ∧
       (MaxIdleTime c0 < Second → MaxIdleTime c' = 180 * Second) ∧
       (Second <= MaxIdleTime c0 → MaxIdleTime c' = MaxIdleTime c0) ∧
       (f64_le (RequestsPerSecond c0) (Finite 0) → Burst c0 <= 0 →
        CleanupInterval c0 < Second → MaxIdleTime c0 < Second →
        c' = defaults) ∧
       (c0 = defaults → c' = defaults)) ∧
    (c' = defaults →
     ∀ (hd : heap) pd, hd !! pd = Some defaults →
       same_behaviour h' rl hd {| config := pd; visitors := ∅ |}) ∧
    (∀ ip tSeen tAllow, tSeen <= tAllow →
       ∃ rl1, Check h' rl ip tSeen tAllow = Some (true, rl1)).
Proof.
  intros Hptr. split; [done|].
  assert (∃ p c0 h0, New cfg h = Some ({| config := p; visitors := ∅ |},
                                       <[p := Config_Validate c0]> h0) ∧
                     RequestsPerSecond c0 ≠ NaN ∧
                     (cfg = None → c0 = defaults) ∧
                     (∀ q c1, cfg = Some q → h !! q = Some c1 → c1 = c0))
    as (p & c0 & h0 & HNew & Hnum & Hnil & Hsome).
  { destruct cfg as [p|].
    - destruct (Hptr p eq_refl) as (c0 & Hp & Hnum). exists p, c0, h.
      split; [by apply New_Some|]. split; [done|]. split; [done|].
      intros q c1 [= ->]. congruence.
    - exists (fresh (dom h)), defaults, h. rewrite New_nil.
      split; [done|]. split; [done|]. split; [done|]. intros ? ? [=]. }
  exists {| config := p; visitors := ∅ |}, (<[p := Config_Validate c0]> h0),
         (Config_Validate c0).
  pose proof (Config_Validate_valid c0 Hnum) as Hvalid.
  split_and!; try done.
  - simpl. by rewrite lookup_insert_eq.
  - intros ->%Hnil. done.
  - intros q c1 Hq Hc1. rewrite (Hsome q c1 Hq Hc1).
    destruct (Config_Validate_fields c0) as (?&Hkeep&?&?&?&?&?&?).
    split_and!; try done; [|apply Config_Validate_all_invalid|].
    + intros Hpos. by apply Hkeep, f64_lt_0_not_le.
    + by intros ->.
  - intros Hd hd pd Hpd. eapply run_same; simpl; [|done|done].
    rewrite lookup_insert_eq. by rewrite Hd.
  - intros ip tSeen tAllow Ht. destruct Hvalid as (Hr & Hb & _).
    destruct (first_Check_true (<[p := Config_Validate c0]> h0)
                {| config := p; visitors := ∅ |} (Config_Validate c0)
                ip tSeen tAllow) as (rl1 & E & _).
    + simpl. by rewrite lookup_insert_eq.
    + revert Hr. unfold f64_lt.
      destruct (RequestsPerSecond (Config_Validate c0)) as [|[]|q]; simpl;
        try done.
      intros Hq. destruct (Qle_bool q 0) eqn:E; [done|].
      apply Qle_bool_false in E. lra.
    + done.
    + done.
    + done.
    + by exists rl1.
Qed.

Lemma construction_normalizes_witness :
  ∃ rl h' c',
    New (Some 1%positive) heap_zero = Some (rl, h') ∧
    h' !! config rl = Some c' ∧ c' = defaults ∧
    ∃ rl1, Check h' rl "10.0.0.1" 0 0 = Some (true, rl1).
Proof.
  destruct (construction_normalizes heap_zero (Some 1%positive))
    as (_ & rl & h' & c' & HNew & _ & Hc' & _ & _ & Hfields & _ & Hfirst).
  - intros p [= <-]. exists zero_config. split; [reflexivity | discriminate].
  - exists rl, h', c'. split; [exact HNew|]. split; [exact Hc'|]. split.
    + destruct (Hfields 1%positive zero_config eq_refl eq_refl)
        as (_ & _ & _ & _ & _ & _ & _ & _ & Hall & _).
      apply Hall; by vm_compute.
    + apply Hfirst. lia.
Defined.

(** ** The sweep *)

Lemma Check_keeps (h : heap) rl c ip tSeen tAllow :
  h !! config rl = Some c →
  ∃ ok rl', Check h rl ip tSeen tAllow = Some (ok, rl') ∧
            config rl' = config rl ∧
            ∀ ip', is_Some (visitors rl !! ip') → is_Some (visitors rl' !! ip').
Proof.
  intros Hc. rewrite (Check_eq _ _ _ _ _ _ Hc). eexists _, _.
  split; [done|]. split; [done|]. intros ip' Hin. simpl.
  destruct (decide (ip = ip')) as [->|Hne].
  - rewrite lookup_insert_eq. by eexists.
  - by rewrite lookup_insert_ne.
Qed.

Lemma run_requests_keep es : ∀ (h : heap) rl c os rl',
  h !! config rl = Some c →
  (∀ now, Tick now ∉ es) →
  run h rl es = Some (os, rl') →
  ∀ ip, is_Some (visitors rl !! ip) → is_Some (visitors rl' !! ip).
Proof.
  induction es as [|e es IH]; intros h rl c os rl' Hc Hno Hrun ip Hin.
  { by injection Hrun as _ <-. }
  destruct e as [ip0 tSeen tAllow | now].
  - destruct (Check_keeps h rl c ip0 tSeen tAllow Hc) as (ok & rl1 & E & Ec & Hk).
    cbn [run step] in Hrun. rewrite E in Hrun. simpl in Hrun.
    destruct (run h rl1 es) as [[os1 rl2]|] eqn:Erun; [|done].
    injection Hrun as _ <-.
    eapply (IH h rl1 c); [by rewrite Ec| |done|by apply Hk].
    intros now Hel. apply (Hno now). by right.
  - exfalso. apply (Hno now). by left.
Qed.

(** [X17] The sweep of [RateLimiter].  A pass at clock reading [now] runs
    to completion; it deletes every entry with
    [now - lastSeen >= MaxIdleTime], keeps every entry with
    [now - lastSeen < MaxIdleTime] as it is, and adds nothing.  Nothing
    else deletes: [getVisitor] and the admission check keep every key of
    the map, and so does every history without a tick. *)
Theorem sweep_removes_exactly_idle (h : heap) rl c now :
  h !! config rl = Some c →
  (∃ rl', cleanupVisitors h rl now = Some rl' ∧
     (∀ ip v, visitors rl !! ip = Some v →
              MaxIdleTime c <= now - lastSeen v → visitors rl' !! ip = None) ∧
     (∀ ip v, visitors rl !! ip = Some v →
              now - lastSeen v < MaxIdleTime c → visitors rl' !! ip = Some v) ∧
     (∀ ip, visitors rl !! ip = None → visitors rl' !! ip = None)) ∧
  (∀ ip t ip', is_Some (visitors rl !! ip') →
     ∃ l rl', getVisitor h rl ip t = Some (l, rl') ∧
              is_Some (visitors rl' !! ip')) ∧
  (∀ ip tSeen tAllow ip', is_Some (visitors rl !! ip') →
     ∃ ok rl', Check h rl ip tSeen tAllow = Some (ok, rl') ∧
               is_Some (visitors rl' !! ip')) ∧
  (∀ es os rl', (∀ t, Tick t ∉ es) → run h rl es = Some (os, rl') →
     ∀ ip', is_Some (visitors rl !! ip') → is_Some (visitors rl' !! ip')).
Proof.
  intros Hc. split_and!.
  - destruct (cleanupVisitors_eq h rl now c Hc) as (rl' & E & _ & Hlook).
    exists rl'. split; [done|]. split_and!.
    + intros ip v Hv Hidle. rewrite Hlook, Hv.
      destruct (Z.leb_spec (MaxIdleTime c) (now - lastSeen v)); [done|lia].
    + intros ip v Hv Hyoung. rewrite Hlook, Hv.
      destruct (Z.leb_spec (MaxIdleTime c) (now - lastSeen v)); [lia|done].
    + intros ip Hv. by rewrite Hlook, Hv.
  - intros ip t ip' Hin. rewrite (getVisitor_eq _ _ _ _ _ Hc).
    eexists _, _. split; [done|]. simpl.
    destruct (decide (ip = ip')) as [->|Hne].
    + rewrite lookup_insert_eq. by eexists.
    + by rewrite lookup_insert_ne.
  - intros ip tSeen tAllow ip' Hin.
    destruct (Check_keeps h rl c ip tSeen tAllow Hc) as (ok & rl' & E & _ & Hk).
    exists ok, rl'. split; [done|]. by apply Hk.
  - intros es os rl' Hno Hrun ip' Hin. by eapply run_requests_keep.
Qed.

Lemma sweep_removes_exactly_idle_witness :
  ∃ rl', cleanupVisitors heap0 spent_registry (180 * Second) = Some rl' ∧
         visitors rl' !! "10.0.0.1" = None.
Proof.
  destruct (proj1 (sweep_removes_exactly_idle heap0 spent_registry defaults
                     (180 * Second) eq_refl))
    as (rl' & E & Hidle & _).
  exists rl'. split; [exact E|].
  apply (Hidle "10.0.0.1" spent_visitor); [reflexivity | by vm_compute].
Defined.

(** The earlier variant keeps an entry whose idle time equals
    [MaxIdleTime]: its comparison is strict. *)
Lemma Legacy_cleanupVisitors_eq (h : heap) s p c now :
  Legacy.config s = Some p → h !! p = Some c →
  ∃ s', Legacy.cleanupVisitors h s now = Some s' ∧
        ∀ ip, Legacy.visitors s' !! ip =
              match Legacy.visitors s !! ip with
              | Some v =>
                  if MaxIdleTime c <? now - lastSeen v then None else Some v
              | None => None
              end.
Proof.
  intros Hp Hc. unfold Legacy.cleanupVisitors. rewrite Hp. simpl. rewrite Hc. simpl.
  eexists; split; [done|]. intros ip. simpl.
  rewrite (sweep_lookup (λ v, MaxIdleTime c <? now - lastSeen v)).
  by destruct (Legacy.visitors s !! ip).
Qed.

Lemma Legacy_getVisitor_agrees (h : heap) rl ip now :
  getVisitor h rl ip now =
  (λ '(l, s), (l, {| config := config rl; visitors := Legacy.visitors s |})) <$>
  Legacy.getVisitor h {| Legacy.config := Some (config rl);
                         Legacy.visitors := visitors rl |} ip now.
Proof.
  unfold getVisitor, Legacy.getVisitor. simpl.
  destruct (visitors rl !! ip); [done|]. simpl.
  by destruct (h !! config rl).
Qed.

(** [C6] Idle eviction.  An entry whose idle time has reached
    [MaxIdleTime] is gone after the next pass of the sweep, whatever its
    bucket held.  Under a configuration with a non-negative rate and a
    burst of at least 1, [getVisitor] then makes a new bucket for the key,
    with tokens equal to the burst, and the admission check for the key
    answers true, leaving the burst less one token. *)
Theorem idle_eviction (h : heap) rl c ip v now :
  h !! config rl = Some c →
  visitors rl !! ip = Some v →
  MaxIdleTime c <= now - lastSeen v →
  (0 <= Limit (RequestsPerSecond c))%Q → 1 <= Burst c →
  ∃ rl1,
    cleanupVisitors h rl now = Some rl1 ∧
    visitors rl1 !! ip = None ∧
    ∀ tSeen tAllow, tSeen <= tAllow →
      (∃ rl2, getVisitor h rl1 ip tSeen =
              Some (NewLimiter (Limit (RequestsPerSecond c)) (Burst c) tSeen, rl2)) ∧
      tokens (NewLimiter (Limit (RequestsPerSecond c)) (Burst c) tSeen) =
        inject_Z (capacity (NewLimiter (Limit (RequestsPerSecond c)) (Burst c) tSeen)) ∧
      ∃ rl2 v2,
        Check h rl1 ip tSeen tAllow = Some (true, rl2) ∧
        visitors rl2 !! ip = Some v2 ∧
        lastSeen v2 = tSeen ∧
        capacity (limiter v2) = Burst c ∧
        (tokens (limiter v2) == inject_Z (Burst c) - 1)%Q.
Proof.
  intros Hc Hv Hidle Hr Hb.
  destruct (cleanupVisitors_eq h rl now c Hc) as (rl1 & E & Ec & Hlook).
  exists rl1. split; [done|].
  assert (visitors rl1 !! ip = None) as Hgone.
  { rewrite Hlook, Hv.
    destruct (Z.leb_spec (MaxIdleTime c) (now - lastSeen v)); [done|lia]. }
  split; [done|]. intros tSeen tAllow Ht.
  assert (h !! config rl1 = Some c) as Hc1 by (by rewrite Ec).
  split_and!.
  - rewrite (getVisitor_eq _ _ _ _ _ Hc1). unfold bucket_of. rewrite Hgone.
    by eexists.
  - done.
  - destruct (first_Check_true h rl1 c ip tSeen tAllow) as (rl2 & E2 & v2 & Hv2 & Htok);
      [done..|].
    exists rl2, v2. split; [done|]. split; [done|].
    rewrite (Check_eq _ _ _ _ _ _ Hc1) in E2. injection E2 as _ <-.
    simpl in Hv2. rewrite lookup_insert_eq in Hv2. injection Hv2 as <-.
    simpl. split; [done|]. split; [|done].
    unfold bucket_of. rewrite Hgone.
    by destruct (Allow_fields (NewLimiter (Limit (RequestsPerSecond c)) (Burst c) tSeen)
                   tAllow) as (_ & -> & _).
Qed.

Lemma idle_eviction_witness :
  ∃ rl1, cleanupVisitors heap0 spent_registry (180 * Second) = Some rl1 ∧
    ∃ rl2, Check heap0 rl1 "10.0.0.1" (180 * Second) (180 * Second) =
           Some (true, rl2).
Proof.
  destruct (idle_eviction heap0 spent_registry defaults "10.0.0.1" spent_visitor
              (180 * Second)) as (rl1 & E & _ & Hnext).
  - reflexivity.
  - reflexivity.
  - by vm_compute.
  - by vm_compute.
  - by vm_compute.
  - exists rl1. split; [exact E|].
    destruct (Hnext (180 * Second) (180 * Second)) as (_ & _ & rl2 & v2 & E2 & _).
    + lia.
    + by exists rl2.
Defined.

(** ** Isolation of the keys *)

Lemma Check_frame (h : heap) rl c ipA ipB tSeen tAllow :
  h !! config rl = Some c → ipA ≠ ipB →
  ∃ ok rl', Check h rl ipA tSeen tAllow = Some (ok, rl') ∧
            config rl' = config rl ∧
            visitors rl' !! ipB = visitors rl !! ipB.
Proof.
  intros Hc Hne. rewrite (Check_eq _ _ _ _ _ _ Hc). eexists _, _.
  split; [done|]. split; [done|]. simpl. by rewrite lookup_insert_ne.
Qed.

Lemma Checks_frame ts : ∀ (h : heap) rl c ipA ipB,
  h !! config rl = Some c → ipA ≠ ipB →
  ∃ oks rl', Checks h rl ipA ts = Some (oks, rl') ∧
             config rl' = config rl ∧
             visitors rl' !! ipB = visitors rl !! ipB.
Proof.
  induction ts as [|[tSeen tAllow] ts IH]; intros h rl c ipA ipB Hc Hne.
  { by exists [], rl. }
  destruct (Check_frame h rl c ipA ipB tSeen tAllow Hc Hne)
    as (ok & rl1 & E1 & Ec1 & Hf1).
  destruct (IH h rl1 c ipA ipB) as (oks & rl' & E & Ec & Hf);
    [by rewrite Ec1 | done |].
  exists (ok :: oks), rl'. cbn [Checks]. rewrite E1. simpl. rewrite E. simpl.
  split; [done|]. split; congruence.
Qed.

Lemma Check_verdict_local (h : heap) rl rl' c ip tSeen tAllow :
  h !! config rl = Some c → h !! config rl' = Some c →
  visitors rl' !! ip = visitors rl !! ip →
  fst <$> Check h rl' ip tSeen tAllow = fst <$> Check h rl ip tSeen tAllow.
Proof.
  intros Hc Hc' Hsame.
  rewrite (Check_eq _ _ _ _ _ _ Hc), (Check_eq _ _ _ _ _ _ Hc'). simpl.
  unfold bucket_of. by rewrite Hsame.
Qed.

(** [C7] Per-key isolation.  An admission check for the key [ipA] leaves
    the entry of every other key [ipB] as it was; in the entry of [ipA] it
    sets [lastSeen] and updates the bucket, whose rate and capacity stay.
    After any sequence of checks for [ipA] the entry of [ipB] is still as
    it was, a check for [ipB] answers what it would have answered without
    them, and if [ipB] is a key the registry has not seen, its first check
    answers true (the configuration having a non-negative rate and a burst
    of at least 1). *)
Theorem per_key_isolation (h : heap) rl c ipA ipB :
  h !! config rl = Some c → ipA ≠ ipB →
  (∀ tSeen tAllow,
     ∃ ok rl', Check h rl ipA tSeen tAllow = Some (ok, rl') ∧
       config rl' = config rl ∧
       visitors rl' !! ipB = visitors rl !! ipB ∧
       ∀ v, visitors rl !! ipA = Some v →
         ∃ v', visitors rl' !! ipA = Some v' ∧ lastSeen v' = tSeen ∧
               rate (limiter v') = rate (limiter v) ∧
               capacity (limiter v') = capacity (limiter v)) ∧
  (∀ ts,
     ∃ oks rl', Checks h rl ipA ts = Some (oks, rl') ∧
       visitors rl' !! ipB = visitors rl !! ipB ∧
       (∀ tSeen tAllow,
          fst <$> Check h rl' ipB tSeen tAllow =
          fst <$> Check h rl ipB tSeen tAllow) ∧
       (visitors rl !! ipB = None →
        (0 <= Limit (RequestsPerSecond c))%Q → 1 <= Burst c →
        ∀ tSeen tAllow, tSeen <= tAllow →
          ∃ rl'', Check h rl' ipB tSeen tAllow = Some (true, rl''))).
Proof.
  intros Hc Hne. split.
  - intros tSeen tAllow. rewrite (Check_eq _ _ _ _ _ _ Hc). eexists _, _.
    split; [done|]. split; [done|]. simpl. split; [by rewrite lookup_insert_ne|].
    intros v Hv. rewrite lookup_insert_eq. eexists. split; [done|]. simpl.
    unfold bucket_of. rewrite Hv.
    by destruct (Allow_fields (limiter v) tAllow) as (-> & -> & _).
  - intros ts.
    destruct (Checks_frame ts h rl c ipA ipB Hc Hne) as (oks & rl' & E & Ec & Hf).
    assert (h !! config rl' = Some c) as Hc' by (by rewrite Ec).
    exists oks, rl'. split; [done|]. split; [done|]. split.
    + intros tSeen tAllow. by apply (Check_verdict_local h rl rl' c).
    + intros Hfresh Hr Hb tSeen tAllow Ht.
      destruct (first_Check_true h rl' c ipB tSeen tAllow) as (rl'' & E' & _);
        [done..|by rewrite Hf|done|].
      by exists rl''.
Qed.

Lemma per_key_isolation_witness :
  ∃ oks rl', Checks heap0 empty_registry "10.0.0.1" (replicate 6 (0, 0)) =
             Some (oks, rl') ∧
    visitors rl' !! "10.0.0.2" = None ∧
    ∃ rl'', Check heap0 rl' "10.0.0.2" 0 0 = Some (true, rl'').
Proof.
  destruct (proj2 (per_key_isolation heap0 empty_registry defaults
                     "10.0.0.1" "10.0.0.2" eq_refl ltac:(discriminate))
                  (replicate 6 (0, 0)))
    as (oks & rl' & E & Hf & _ & Hfirst).
  exists oks, rl'. split; [exact E|]. split; [exact Hf|].
  apply Hfirst; [reflexivity | by vm_compute | by vm_compute | lia].
Defined.

(** ** The life of the sweep *)

Lemma step_total (h : heap) rl c e :
  h !! config rl = Some c →
  ∃ o rl', step h rl e = Some (o, rl') ∧ config rl' = config rl ∧
           (o = None ↔ ∃ now, e = Tick now).
Proof.
  intros Hc. destruct e as [ip tSeen tAllow | now]; simpl.
  - rewrite (Check_eq _ _ _ _ _ _ Hc). simpl. eexists _, _.
    split; [done|]. split; [done|]. split; [done|]. by intros [? ?].
  - destruct (cleanupVisitors_eq h rl now c Hc) as (rl' & -> & Ec & _). simpl.
    exists None, rl'. split; [done|]. split; [done|]. split; [|done].
    intros _. by exists now.
Qed.

Lemma run_total es : ∀ (h : heap) rl c,
  h !! config rl = Some c →
  ∃ os rl', run h rl es = Some (os, rl') ∧ config rl' = config rl ∧
            length os = length es.
Proof.
  induction es as [|e es IH]; intros h rl c Hc.
  { by exists [], rl. }
  destruct (step_total h rl c e Hc) as (o & rl1 & E1 & Ec1 & _).
  destruct (IH h rl1 c) as (os & rl' & E & Ec & Hlen); [by rewrite Ec1|].
  exists (o :: os), rl'. cbn [run]. rewrite E1. simpl. rewrite E. simpl.
  split; [done|]. split; [congruence|]. by rewrite Hlen.
Qed.

(** [C8] No event shuts the sweep down: whichever request or tick has just
    happened, there is a registry in which a later pass still deletes an
    entry.  The limiter has no Shutdown operation. *)
Lemma no_Shutdown : ¬ ∃ e : event, stops_sweep e.
Proof.
  intros [e Hstop]. destruct e as [ip tSeen tAllow | t].
  - set (other := if String.eqb ip "a" then "b"%string else "a"%string).
    assert (ip ≠ other) as Hne.
    { subst other. destruct (String.eqb_spec ip "a") as [->|]; congruence. }
    destruct (Check_frame heap0 (seen_at other 0) defaults ip other tSeen tAllow
                eq_refl Hne) as (ok & rl' & E & Ec & Hf).
    destruct (cleanupVisitors_eq heap0 rl' (180 * Second) defaults)
      as (rl'' & E' & _ & Hlook); [by rewrite Ec|].
    assert (visitors rl'' = visitors rl') as Heq.
    { eapply (Hstop heap0 (seen_at other 0) (Some ok) rl'); [by eexists| |done].
      simpl. by rewrite E. }
    specialize (Hlook other). rewrite Heq, Hf in Hlook. simpl in Hlook.
    rewrite lookup_singleton_eq in Hlook. vm_compute in Hlook.
    discriminate Hlook.
  - destruct (cleanupVisitors_eq heap0 (seen_at "a" t) t defaults eq_refl)
      as (rl' & E & Ec & Hkeep).
    destruct (cleanupVisitors_eq heap0 rl' (t + 180 * Second) defaults)
      as (rl'' & E' & _ & Hlook); [by rewrite Ec|].
    assert (visitors rl'' = visitors rl') as Heq.
    { eapply (Hstop heap0 (seen_at "a" t) None rl'); [by eexists| |done].
      simpl. by rewrite E. }
    specialize (Hlook "a"%string). specialize (Hkeep "a"%string).
    rewrite Heq, Hkeep in Hlook. unfold seen_at in Hlook.
    cbn [visitors] in Hlook. rewrite lookup_singleton_eq in Hlook.
    cbn [lastSeen] in Hlook.
    replace (t - t) with 0 in Hlook by lia.
    change (MaxIdleTime defaults <=? 0) with false in Hlook.
    cbn [lastSeen] in Hlook.
    replace (t + 180 * Second - t) with (180 * Second) in Hlook by lia.
    change (MaxIdleTime defaults <=? 180 * Second) with true in Hlook.
    discriminate Hlook.
Qed.

(** [C8], as the code has it.  The sweep runs for the life of the limiter:
    every history of requests and ticks runs to completion, and after it
    the next tick still carries out a pass, which deletes every entry whose
    idle time has reached [MaxIdleTime]; the next request is still
    answered. *)
Theorem sweep_never_stops (h : heap) rl c es :
  h !! config rl = Some c →
  ∃ os rl', run h rl es = Some (os, rl') ∧ length os = length es ∧
    (∀ now, ∃ rl'',
       step h rl' (Tick now) = Some (None, rl'') ∧
       ∀ ip v, visitors rl' !! ip = Some v →
               MaxIdleTime c <= now - lastSeen v →
               visitors rl'' !! ip = None) ∧
    (∀ ip tSeen tAllow, ∃ ok rl'',
       step h rl' (Request ip tSeen tAllow) = Some (Some ok, rl'')).
Proof.
  intros Hc. destruct (run_total es h rl c Hc) as (os & rl' & E & Ec & Hlen).
  assert (h !! config rl' = Some c) as Hc' by (by rewrite Ec).
  exists os, rl'. split; [done|]. split; [done|]. split.
  - intros now.
    destruct (cleanupVisitors_eq h rl' now c Hc') as (rl'' & E' & _ & Hlook).
    exists rl''. simpl. rewrite E'. split; [done|].
    intros ip v Hv Hidle. rewrite Hlook, Hv.
    destruct (Z.leb_spec (MaxIdleTime c) (now - lastSeen v)); [done|lia].
  - intros ip tSeen tAllow. simpl. rewrite (Check_eq _ _ _ _ _ _ Hc'). simpl.
    by eexists _, _.
Qed.

Lemma sweep_never_stops_witness :
  ∃ os rl',
    run heap0 empty_registry
        [Request "10.0.0.1" 0 0; Tick (60 * Second); Tick (120 * Second)] =
    Some (os, rl') ∧
    ∃ rl'', step heap0 rl' (Tick (180 * Second)) = Some (None, rl'').
Proof.
  destruct (sweep_never_stops heap0 empty_registry defaults
              [Request "10.0.0.1" 0 0; Tick (60 * Second); Tick (120 * Second)]
              eq_refl) as (os & rl' & E & _ & Htick & _).
  exists os, rl'. split; [exact E|].
  destruct (Htick (180 * Second)) as (rl'' & E' & _). by exists rl''.
Defined.

(** ** The client key *)

(** The first piece of [Split] is the part of the string before the first
    separator. *)
Lemma Split_head s sep :
  ∃ first others rest,
    Split s sep = first :: others ∧
    s = String.append first rest ∧
    occurs sep first = false ∧
    (rest = EmptyString ∨ ∃ rest', rest = String sep rest').
Proof.
  induction s as [|c s IH].
  { exists EmptyString, [], EmptyString. simpl. by split_and!; [..|left]. }
  simpl. destruct (Ascii.eqb_spec c sep) as [->|Hne].
  - exists EmptyString, (Split s sep), (String sep s). simpl.
    split_and!; [done..|]. right. by eexists.
  - destruct IH as (first & others & rest & -> & Hs & Hocc & Hrest).
    exists (String c first), others, rest. simpl.
    split_and!; [done|by rewrite Hs| |done].
    rewrite Hocc. by destruct (Ascii.eqb_spec c sep).
Qed.

Lemma String_eqb_false s t : String.eqb s t = false ↔ s ≠ t.
Proof. by destruct (String.eqb_spec s t). Qed.

(** [X18] The client key of [getClientIP].  With a non-empty
    X-Forwarded-For the key is the trimmed part of that header before its
    first comma; otherwise, with a non-empty X-Real-IP, it is that header;
    otherwise it is the host of the remote address when the address splits
    into host and port, and the remote address itself when it does not. *)
Theorem client_key_precedence
    (TrimSpace : string → string)
    (SplitHostPort : string → option (string * string)) (r : request) :
  (Header_Get r "X-Forwarded-For" ≠ EmptyString →
   ∃ first rest,
     Header_Get r "X-Forwarded-For" = String.append first rest ∧
     occurs "," first = false ∧
     (rest = EmptyString ∨ ∃ rest', rest = String "," rest') ∧
     getClientIP TrimSpace SplitHostPort r = TrimSpace first) ∧
  (Header_Get r "X-Forwarded-For" = EmptyString →
   Header_Get r "X-Real-IP" ≠ EmptyString →
   getClientIP TrimSpace SplitHostPort r = Header_Get r "X-Real-IP") ∧
  (Header_Get r "X-Forwarded-For" = EmptyString →
   Header_Get r "X-Real-IP" = EmptyString →
   ∀ host port, SplitHostPort (RemoteAddr r) = Some (host, port) →
     getClientIP TrimSpace SplitHostPort r = host) ∧
  (Header_Get r "X-Forwarded-For" = EmptyString →
   Header_Get r "X-Real-IP" = EmptyString →
   SplitHostPort (RemoteAddr r) = None →
   getClientIP TrimSpace SplitHostPort r = RemoteAddr r).
Proof.
  unfold getClientIP. split_and!.
  - intros Hx. apply String_eqb_false in Hx. rewrite Hx. simpl.
    destruct (Split_head (Header_Get r "X-Forwarded-For") ",")
      as (first & others & rest & -> & Hs & Hocc & Hrest).
    by exists first, rest.
  - intros -> Hr. apply String_eqb_false in Hr. by rewrite Hr.
  - intros -> -> host port ->. done.
  - intros -> -> ->. done.
Qed.

Lemma client_key_precedence_witness :
  ∃ first rest,
    " 203.0.113.7 , 10.0.0.1"%string = String.append first rest ∧
    occurs "," first = false ∧
    (rest = EmptyString ∨ ∃ rest', rest = String "," rest') ∧
    getClientIP asciiTrimSpace splitLastColon proxied_request =
    asciiTrimSpace first.
Proof.
  apply (proj1 (client_key_precedence asciiTrimSpace splitLastColon
                  proxied_request)).
  discriminate.
Defined.

Example getClientIP_forwarded :
  getClientIP asciiTrimSpace splitLastColon proxied_request = "203.0.113.7"%string.
Proof. reflexivity. Qed.

Example getClientIP_real_ip :
  getClientIP asciiTrimSpace splitLastColon
    {| Header_Get := header_of "" "198.51.100.2"; RemoteAddr := "192.0.2.1:4711" |}
  = "198.51.100.2"%string.
Proof. reflexivity. Qed.

Example getClientIP_remote :
  getClientIP asciiTrimSpace splitLastColon
    {| Header_Get := header_of "" ""; RemoteAddr := "192.0.2.1:4711" |}
  = "192.0.2.1"%string.
Proof. reflexivity. Qed.

Example getClientIP_unsplit :
  getClientIP asciiTrimSpace splitLastColon
    {| Header_Get := header_of "" ""; RemoteAddr := "pipe" |}
  = "pipe"%string.
Proof. reflexivity. Qed.

(** The earlier variant takes the raw remote address, port included. *)
Example Legacy_key_is_RemoteAddr :
  ∃ s, Legacy.RateLimitMiddleware heap0
         {| Legacy.config := Some 1%positive; Legacy.visitors := ∅ |}
         proxied_request 0 0 = Some (true, s) ∧
       is_Some (Legacy.visitors s !! "192.0.2.1:4711"%string) ∧
       Legacy.visitors s !! "203.0.113.7"%string = None.
Proof. eexists. split; [reflexivity|]. split; [by eexists | reflexivity]. Qed.

(** ** The shared configuration *)



(** * Further properties of the code *)

#[local] Set Warnings "-clear-no-such-hyp".

(** ** Validation and construction *)

Lemma Config_Validate_idem c : Config_Validate (Config_Validate c) = Config_Validate c.
Proof. apply Config_Validate_settled_id, Config_Validate_settled. Qed.

(** [X1] [Validate] is idempotent.  On an allocated configuration it
    succeeds and leaves a value on which none of its tests fires, a valid
    one when the rate is a number; a second call changes nothing; no other
    configuration is touched; and the first call changes the store exactly
    when one of its tests fired. *)
Theorem Validate_idempotent (h : heap) p c :
  h !! p = Some c →
  ∃ h1, Validate p h = Some h1 ∧
        Validate p h1 = Some h1 ∧
        (∃ c1, h1 !! p = Some c1 ∧ settled c1 ∧
               (RequestsPerSecond c ≠ NaN → valid c1) ∧
               (RequestsPerSecond c = NaN → RequestsPerSecond c1 = NaN)) ∧
        (∀ q, q ≠ p → h1 !! q = h !! q) ∧
        (settled c ↔ h1 = h).
Proof.
  intros Hp. exists (<[p := Config_Validate c]> h). unfold Validate.
  rewrite Hp, lookup_insert_eq. simpl.
  rewrite Config_Validate_idem, insert_insert_eq. split_and!; try done.
  - exists (Config_Validate c). split; [done|]. split_and!.
    + apply Config_Validate_settled.
    + apply Config_Validate_valid.
    + apply Config_Validate_NaN.
  - intros q Hq. by rewrite lookup_insert_ne.
  - split.
    + intros Hv. rewrite (Config_Validate_settled_id c Hv). by apply insert_id.
    + intros Heq. assert (Config_Validate c = c) as Hfix.
      { assert (<[p := Config_Validate c]> h !! p = Some c) as Hl
          by (by rewrite Heq).
        rewrite lookup_insert_eq in Hl. by injection Hl. }
      rewrite <- Hfix. apply Config_Validate_settled.
Qed.

Lemma Validate_idempotent_witness :
  ∃ h1, Validate 1%positive heap_zero = Some h1 ∧ Validate 1%positive h1 = Some h1.
Proof.
  destruct (Validate_idempotent heap_zero 1%positive zero_config eq_refl)
    as (h1 & E1 & E2 & _).
  exists h1. split; [exact E1 | exact E2].
Defined.

(** [Validate] on an address that holds no configuration is the
    nil-dereference panic, and then [New] fails with it. *)
Lemma Validate_None (h : heap) p : h !! p = None → Validate p h = None.
Proof. intros Hp. unfold Validate. by rewrite Hp. Qed.

Lemma fresh_not_allocated (h : heap) : h !! fresh (dom h) = None.
Proof. apply not_elem_of_dom, is_fresh. Qed.

(** [X2] A nil configuration is never shared.  [New] on nil allocates the
    configuration at an address the store did not hold, with the default
    values, and leaves every other configuration as it was.  A second
    limiter built on nil gets another address, so no write to the
    configuration of one is read by the other. *)
Theorem New_nil_fresh (h : heap) :
  ∃ rl h',
    New None h = Some (rl, h') ∧
    visitors rl = ∅ ∧
    h !! config rl = None ∧
    h' !! config rl = Some defaults ∧
    (∀ q, q ≠ config rl → h' !! q = h !! q) ∧
    ∃ rl2 h2,
      New None h' = Some (rl2, h2) ∧
      config rl2 ≠ config rl ∧
      (∀ c1, <[config rl2 := c1]> h2 !! config rl = Some defaults) ∧
      (∀ c1, <[config rl := c1]> h2 !! config rl2 = Some defaults).
Proof.
  rewrite New_nil. eexists _, _. split; [done|]. simpl.
  pose proof (fresh_not_allocated h) as Hfresh.
  set (p := fresh (dom h)) in *. set (h' := <[p := defaults]> h).
  split_and!; try done.
  - subst h'. by rewrite lookup_insert_eq.
  - intros q Hq. subst h'. by rewrite lookup_insert_ne.
  - rewrite New_nil. eexists _, _. split; [done|]. simpl.
    pose proof (fresh_not_allocated h') as Hfresh'.
    set (p2 := fresh (dom h')) in *.
    assert (p2 ≠ p) as Hne.
    { intros Heq. rewrite Heq in Hfresh'. subst h'.
      by rewrite lookup_insert_eq in Hfresh'. }
    split_and!; [done| |].
    + intros c1. rewrite !lookup_insert_ne by done. subst h'.
      by rewrite lookup_insert_eq.
    + intros c1. rewrite lookup_insert_ne by done. by rewrite lookup_insert_eq.
Qed.

(** [X3] Building on a pointer again.  After [New] has validated the
    configuration at [p], a second [New] on [p] succeeds and leaves the store
    as it is; both limiters keep [p], so each reads whatever is written
    through it. *)
Theorem New_again (h : heap) p rl h' :
  New (Some p) h = Some (rl, h') →
  ∃ rl2,
    New (Some p) h' = Some (rl2, h') ∧
    config rl2 = config rl ∧ config rl = p ∧
    ∀ c1 ip t,
      ∃ rl1 rl3,
        getVisitor (<[p := c1]> h') rl ip t =
          Some (NewLimiter (Limit (RequestsPerSecond c1)) (Burst c1) t, rl1) ∧
        getVisitor (<[p := c1]> h') rl2 ip t =
          Some (NewLimiter (Limit (RequestsPerSecond c1)) (Burst c1) t, rl3).
Proof.
  intros HNew.
  destruct (h !! p) as [c0|] eqn:Hp.
  - rewrite (New_Some h p c0 Hp) in HNew. injection HNew as <- <-.
    exists {| config := p; visitors := ∅ |}.
    rewrite (New_Some _ p (Config_Validate c0)) by (by rewrite lookup_insert_eq).
    rewrite Config_Validate_idem, insert_insert_eq.
    split_and!; try done. intros c1 ip t.
    rewrite (getVisitor_eq _ _ _ _ c1) by (simpl; by rewrite lookup_insert_eq).
    unfold bucket_of. simpl. rewrite lookup_empty. by eexists _, _.
  - unfold New in HNew. by rewrite (Validate_None h p Hp) in HNew.
Qed.

Lemma New_again_witness :
  ∃ rl h' rl2, New (Some 1%positive) heap_zero = Some (rl, h') ∧
               New (Some 1%positive) h' = Some (rl2, h').
Proof.
  exists {| config := 1%positive; visitors := ∅ |},
         (<[1%positive := Config_Validate zero_config]> heap_zero).
  destruct (New_again heap_zero 1%positive
              {| config := 1%positive; visitors := ∅ |}
              (<[1%positive := Config_Validate zero_config]> heap_zero)
              eq_refl) as (rl2 & E & _).
  exists rl2. split; [reflexivity | exact E].
Defined.

(** ** The registry *)

(** [X4] A key the registry knows.  For a key with an entry, [getVisitor]
    does not read the configuration: on any store it returns the limiter
    of the entry, and only the [lastSeen] of that entry changes.  The
    bucket keeps the rate and capacity it was created with, on whatever
    store later checks run. *)
Theorem getVisitor_known (h : heap) rl ip v now :
  visitors rl !! ip = Some v →
  ∃ rl',
    getVisitor h rl ip now = Some (limiter v, rl') ∧
    config rl' = config rl ∧
    visitors rl' !! ip = Some {| limiter := limiter v; lastSeen := now |} ∧
    (∀ ip', ip' ≠ ip → visitors rl' !! ip' = visitors rl !! ip') ∧
    dom (visitors rl') = dom (visitors rl) ∧
    ∀ (h2 : heap) tSeen tAllow,
      ∃ ok rl2 v2,
        Check h2 rl' ip tSeen tAllow = Some (ok, rl2) ∧
        visitors rl2 !! ip = Some v2 ∧
        rate (limiter v2) = rate (limiter v) ∧
        capacity (limiter v2) = capacity (limiter v).
Proof.
  intros Hv. unfold getVisitor. rewrite Hv. eexists. split; [done|]. simpl.
  split_and!; try done.
  - by rewrite lookup_insert_eq.
  - intros ip' Hne. by rewrite lookup_insert_ne.
  - apply dom_insert_lookup_L. by eexists.
  - intros h2 tSeen tAllow. unfold Check, getVisitor. simpl.
    rewrite lookup_insert_eq. simpl.
    destruct (Allow (limiter v) tAllow) as [ok l] eqn:E. simpl.
    eexists _, _, _. split; [done|]. simpl.
    rewrite alter_insert_eq, lookup_insert_eq. split; [done|]. simpl.
    destruct (Allow_fields (limiter v) tAllow) as (Er & Ec & _).
    rewrite E in Er, Ec. done.
Qed.

Lemma getVisitor_known_witness :
  ∃ rl', getVisitor ∅ spent_registry "10.0.0.1" 7 =
         Some (limiter spent_visitor, rl').
Proof.
  destruct (getVisitor_known ∅ spent_registry "10.0.0.1" spent_visitor 7 eq_refl)
    as (rl' & E & _).
  exists rl'. exact E.
Defined.

Lemma Check_dom (h : heap) rl c ip tSeen tAllow :
  h !! config rl = Some c →
  ∃ ok rl', Check h rl ip tSeen tAllow = Some (ok, rl') ∧
            config rl' = config rl ∧
            dom (visitors rl') = {[ ip ]} ∪ dom (visitors rl) ∧
            (size (visitors rl') ≤ S (size (visitors rl)))%nat.
Proof.
  intros Hc. rewrite (Check_eq _ _ _ _ _ _ Hc). eexists _, _.
  split; [done|]. split; [done|]. simpl. split; [apply dom_insert_L|].
  destruct (visitors rl !! ip) as [v|] eqn:Hv.
  - rewrite map_size_insert_Some; [lia | by eexists].
  - rewrite map_size_insert_None; [lia | done].
Qed.

Lemma cleanupVisitors_subseteq (h : heap) rl c now :
  h !! config rl = Some c →
  ∃ rl', cleanupVisitors h rl now = Some rl' ∧
         config rl' = config rl ∧
         visitors rl' ⊆ visitors rl.
Proof.
  intros Hc. destruct (cleanupVisitors_eq h rl now c Hc) as (rl' & E & Ec & Hlook).
  exists rl'. split; [done|]. split; [done|].
  apply map_subseteq_spec. intros ip v. rewrite Hlook.
  destruct (visitors rl !! ip) as [v0|]; [|done].
  by destruct (MaxIdleTime c <=? now - lastSeen v0).
Qed.

(** [X5] Growth of the registry.  A history adds entries only for the keys
    it requests, at most one for each request; without ticks the keys of
    the registry are exactly the old ones and the requested ones. *)
Theorem registry_growth (h : heap) rl c es os rl' :
  h !! config rl = Some c →
  run h rl es = Some (os, rl') →
  dom (visitors rl') ⊆ dom (visitors rl) ∪ list_to_set (keys_of es) ∧
  (size (visitors rl') ≤ size (visitors rl) + length (keys_of es))%nat ∧
  ((∀ t, Tick t ∉ es) →
   dom (visitors rl') = dom (visitors rl) ∪ list_to_set (keys_of es)).
Proof.
  revert rl os rl'.
  induction es as [|e es IH]; intros rl os rl' Hc Hrun.
  { injection Hrun as _ <-. simpl. split_and!; [set_solver | lia | set_solver]. }
  cbn [run] in Hrun. destruct e as [ip tSeen tAllow | now].
  - destruct (Check_dom h rl c ip tSeen tAllow Hc) as (ok & rl1 & E & Ec & Hdom & Hsize).
    cbn [step] in Hrun. rewrite E in Hrun. simpl in Hrun.
    destruct (run h rl1 es) as [[os1 rl2]|] eqn:Erun; [|done].
    injection Hrun as _ <-.
    destruct (IH rl1 os1 rl2) as (Hsub & Hsz & Heq); [by rewrite Ec | done |].
    simpl. rewrite Hdom in Hsub, Heq. split_and!.
    + set_solver.
    + lia.
    + intros Hno. rewrite Heq; [set_solver|].
      intros t Ht. apply (Hno t). by right.
  - destruct (cleanupVisitors_subseteq h rl c now Hc) as (rl1 & E & Ec & Hsub1).
    cbn [step] in Hrun. rewrite E in Hrun. simpl in Hrun.
    destruct (run h rl1 es) as [[os1 rl2]|] eqn:Erun; [|done].
    injection Hrun as _ <-.
    destruct (IH rl1 os1 rl2) as (Hsub & Hsz & _); [by rewrite Ec | done |].
    pose proof (subseteq_dom _ _ Hsub1) as Hd.
    pose proof (map_subseteq_size _ _ Hsub1) as Hs.
    simpl. split_and!.
    + set_solver.
    + lia.
    + intros Hno. exfalso. apply (Hno now). by left.
Qed.

Lemma registry_growth_witness :
  ∃ os rl',
    run heap0 empty_registry
        [Request "10.0.0.1" 0 0; Request "10.0.0.2" 1 1; Request "10.0.0.1" 2 2] =
    Some (os, rl') ∧
    (size (visitors rl') ≤ 0 + 3)%nat.
Proof.
  destruct (run_total [Request "10.0.0.1" 0 0; Request "10.0.0.2" 1 1;
                       Request "10.0.0.1" 2 2]
              heap0 empty_registry defaults eq_refl) as (os & rl' & E & _).
  exists os, rl'. split; [exact E|].
  exact (proj1 (proj2 (registry_growth heap0 empty_registry defaults _ os rl'
                         eq_refl E))).
Defined.

(** [X6] The sweep as a filter.  A pass leaves exactly the entries seen
    less than [MaxIdleTime] before its clock reading, each as it was: after
    the pass every entry of the registry is that young, the registry has
    not grown, and a pass that finds every entry young changes nothing. *)
Theorem cleanupVisitors_filter (h : heap) rl c now :
  h !! config rl = Some c →
  ∃ rl',
    cleanupVisitors h rl now = Some rl' ∧
    config rl' = config rl ∧
    visitors rl' =
      filter (λ kv, now - lastSeen kv.2 < MaxIdleTime c) (visitors rl) ∧
    (∀ ip v, visitors rl' !! ip = Some v → now - lastSeen v < MaxIdleTime c) ∧
    (size (visitors rl') ≤ size (visitors rl))%nat ∧
    ((∀ ip v, visitors rl !! ip = Some v → now - lastSeen v < MaxIdleTime c) →
     rl' = rl).
Proof.
  intros Hc. destruct (cleanupVisitors_eq h rl now c Hc) as (rl' & E & Ec & Hlook).
  exists rl'. split; [done|]. split; [done|].
  assert (visitors rl' =
          filter (λ kv, now - lastSeen kv.2 < MaxIdleTime c) (visitors rl)) as Hf.
  { apply map_eq. intros ip. rewrite Hlook, map_lookup_filter.
    destruct (visitors rl !! ip) as [v|]; [|done]. simpl.
    destruct (Z.leb_spec (MaxIdleTime c) (now - lastSeen v)).
    - rewrite option_guard_False; [done | lia].
    - by rewrite option_guard_True. }
  split; [done|]. split_and!.
  - intros ip v. rewrite Hf. intros [_ Hy]%map_lookup_filter_Some. done.
  - rewrite Hf. apply map_subseteq_size, map_filter_subseteq.
  - intros Hall. destruct rl as [p m], rl' as [p' m']. simpl in *. subst p'.
    f_equal. rewrite Hf. apply map_filter_id. intros ip v Hv. simpl.
    by apply (Hall ip).
Qed.

Lemma cleanupVisitors_filter_witness :
  ∃ rl', cleanupVisitors heap0 spent_registry (179 * Second) = Some rl' ∧
         rl' = spent_registry.
Proof.
  destruct (cleanupVisitors_filter heap0 spent_registry defaults (179 * Second)
              eq_refl) as (rl' & E & _ & _ & _ & _ & Hid).
  exists rl'. split; [exact E|]. apply Hid.
  intros ip v Hv. simpl in Hv.
  apply lookup_singleton_Some in Hv as [_ <-]. by vm_compute.
Defined.

(** [X7] Passes compose.  With an unchanged configuration, a pass repeated
    at the same clock reading deletes nothing more, and a pass followed by
    a later pass leaves what the later pass alone would leave. *)
Theorem cleanupVisitors_compose (h : heap) rl c now1 now2 :
  h !! config rl = Some c →
  now1 <= now2 →
  ∃ rl1 rl2,
    cleanupVisitors h rl now1 = Some rl1 ∧
    cleanupVisitors h rl1 now1 = Some rl1 ∧
    cleanupVisitors h rl1 now2 = Some rl2 ∧
    cleanupVisitors h rl now2 = Some rl2.
Proof.
  intros Hc Hle.
  destruct (cleanupVisitors_eq h rl now1 c Hc) as (rl1 & E1 & Ec1 & H1).
  assert (h !! config rl1 = Some c) as Hc1 by (by rewrite Ec1).
  destruct (cleanupVisitors_eq h rl1 now1 c Hc1) as (rl1' & E1' & Ec1' & H1').
  destruct (cleanupVisitors_eq h rl1 now2 c Hc1) as (rl2 & E2 & Ec2 & H2).
  destruct (cleanupVisitors_eq h rl now2 c Hc) as (rl2' & E2' & Ec2' & H2').
  assert (∀ a b : RateLimiter,
            config a = config b → (∀ ip, visitors a !! ip = visitors b !! ip) →
            a = b) as Hext.
  { intros [pa ma] [pb mb] Hp Hm. simpl in *. subst pb. f_equal. by apply map_eq. }
  assert (rl1' = rl1) as ->.
  { apply Hext; [done|]. intros ip. rewrite H1', H1.
    destruct (visitors rl !! ip) as [v|]; [|done].
    destruct (MaxIdleTime c <=? now1 - lastSeen v) eqn:E; [done|]. by rewrite E. }
  assert (rl2' = rl2) as ->.
  { apply Hext; [congruence|]. intros ip. rewrite H2', H2, H1.
    destruct (visitors rl !! ip) as [v|]; [|done].
    destruct (Z.leb_spec (MaxIdleTime c) (now1 - lastSeen v)); [|done].
    destruct (Z.leb_spec (MaxIdleTime c) (now2 - lastSeen v)); [done|lia]. }
  by exists rl1, rl2.
Qed.

Lemma cleanupVisitors_compose_witness :
  ∃ rl1 rl2,
    cleanupVisitors heap0 spent_registry (60 * Second) = Some rl1 ∧
    cleanupVisitors heap0 rl1 (180 * Second) = Some rl2 ∧
    cleanupVisitors heap0 spent_registry (180 * Second) = Some rl2.
Proof.
  destruct (cleanupVisitors_compose heap0 spent_registry defaults
              (60 * Second) (180 * Second) eq_refl)
    as (rl1 & rl2 & E1 & _ & E2 & E3).
  - by vm_compute.
  - exists rl1, rl2. split; [exact E1|]. split; [exact E2 | exact E3].
Defined.

Lemma sweeps_unseen_gen es : ∀ (h : heap) rlA rlB c ip,
  h !! config rlA = Some c → h !! config rlB = Some c →
  visitors rlA !! ip = visitors rlB !! ip →
  stays_active ip (MaxIdleTime c) (lastSeen <$> visitors rlA !! ip) es →
  ∃ os rlA' oks rlB',
    run h rlA es = Some (os, rlA') ∧
    Checks h rlB ip (readings_of es) = Some (oks, rlB') ∧
    answers os = oks ∧
    visitors rlA' !! ip = visitors rlB' !! ip.
Proof.
  induction es as [|e es IH]; intros h rlA rlB c ip HcA HcB Hsame Hact.
  { by exists [], rlA, [], rlB. }
  destruct e as [ip' tSeen tAllow | now]; cbn [stays_active] in Hact.
  - destruct Hact as [-> Hact].
    cbn [run step readings_of Checks].
    rewrite (Check_eq _ _ _ _ _ _ HcA), (Check_eq _ _ _ _ _ _ HcB). simpl.
    assert (bucket_of c rlA ip tSeen = bucket_of c rlB ip tSeen) as Hb
      by (unfold bucket_of; by rewrite Hsame).
    rewrite Hb.
    set (v1 := {| limiter := (Allow (bucket_of c rlB ip tSeen) tAllow).2;
                  lastSeen := tSeen |}).
    destruct (IH h (set_visitors (<[ip := v1]> (visitors rlA)) rlA)
                (set_visitors (<[ip := v1]> (visitors rlB)) rlB) c ip)
      as (os & rlA' & oks & rlB' & EA & EB & Hans & Hfin).
    + done.
    + done.
    + simpl. by rewrite !lookup_insert_eq.
    + simpl. by rewrite lookup_insert_eq.
    + rewrite EA, EB. simpl. eexists _, _, _, _. split; [done|]. split; [done|].
      split; [|done]. unfold answers in *. simpl. by f_equal.
  - destruct Hact as [Hyoung Hact].
    destruct (cleanupVisitors_eq h rlA now c HcA) as (rlA1 & E & Ec & Hlook).
    assert (visitors rlA1 !! ip = visitors rlA !! ip) as Hkept.
    { rewrite Hlook. destruct (visitors rlA !! ip) as [v|]; [|done].
      simpl in Hyoung.
      destruct (Z.leb_spec (MaxIdleTime c) (now - lastSeen v)); [lia|done]. }
    destruct (IH h rlA1 rlB c ip) as (os & rlA' & oks & rlB' & EA & EB & Hans & Hfin).
    + by rewrite Ec.
    + done.
    + by rewrite Hkept.
    + by rewrite Hkept.
    + cbn [run step readings_of]. rewrite E. simpl. rewrite EA. simpl.
      by eexists _, _, _, _.
Qed.

(** [X8] An active client does not notice the sweep.  In a history of
    requests for one key and of ticks, if every tick comes less than
    [MaxIdleTime] after the last request before it (admitted or refused:
    both set [lastSeen]), the requests are answered as they would be
    without the ticks and the bucket of the key ends in the same state. *)
Theorem sweeps_unseen_by_active (h : heap) rl c ip es :
  h !! config rl = Some c →
  stays_active ip (MaxIdleTime c) (lastSeen <$> visitors rl !! ip) es →
  ∃ os rl' oks rl0,
    run h rl es = Some (os, rl') ∧
    Checks h rl ip (readings_of es) = Some (oks, rl0) ∧
    answers os = oks ∧
    visitors rl' !! ip = visitors rl0 !! ip.
Proof. intros Hc Hact. by apply (sweeps_unseen_gen es h rl rl c ip). Qed.

Lemma sweeps_unseen_by_active_witness :
  ∃ os rl' oks rl0,
    run heap0 spent_registry
        [Tick (60 * Second); Request "10.0.0.1" (61 * Second) (61 * Second);
         Tick (240 * Second); Request "10.0.0.1" (241 * Second) (241 * Second)] =
    Some (os, rl') ∧
    Checks heap0 spent_registry "10.0.0.1"
           [(61 * Second, 61 * Second); (241 * Second, 241 * Second)] =
    Some (oks, rl0) ∧
    answers os = oks.
Proof.
  destruct (sweeps_unseen_by_active heap0 spent_registry defaults "10.0.0.1"
              [Tick (60 * Second); Request "10.0.0.1" (61 * Second) (61 * Second);
               Tick (240 * Second);
               Request "10.0.0.1" (241 * Second) (241 * Second)] eq_refl)
    as (os & rl' & oks & rl0 & E1 & E2 & Hans & _).
  - simpl. split_and!; try done; by vm_compute.
  - exists os, rl', oks, rl0. split; [exact E1|]. split; [exact E2 | exact Hans].
Defined.

(** ** The earlier, package-level variant *)

(** [X9] The earlier sweep.  A pass of the package-level variant deletes
    the entries idle for more than [MaxIdleTime] and keeps the others as
    they are, those idle for exactly [MaxIdleTime] included; away from that
    boundary it leaves what the pass of [RateLimiter] leaves. *)
Theorem Legacy_sweep_strict (h : heap) s p c now :
  Legacy.config s = Some p →
  h !! p = Some c →
  ∃ s',
    Legacy.cleanupVisitors h s now = Some s' ∧
    Legacy.config s' = Legacy.config s ∧
    (∀ ip v, Legacy.visitors s !! ip = Some v →
             MaxIdleTime c < now - lastSeen v →
             Legacy.visitors s' !! ip = None) ∧
    (∀ ip v, Legacy.visitors s !! ip = Some v →
             now - lastSeen v <= MaxIdleTime c →
             Legacy.visitors s' !! ip = Some v) ∧
    (∀ ip, Legacy.visitors s !! ip = None → Legacy.visitors s' !! ip = None) ∧
    ∃ rl',
      cleanupVisitors h {| config := p; visitors := Legacy.visitors s |} now =
        Some rl' ∧
      ∀ ip, (∀ v, Legacy.visitors s !! ip = Some v →
                  now - lastSeen v ≠ MaxIdleTime c) →
            visitors rl' !! ip = Legacy.visitors s' !! ip.
Proof.
  intros Hp Hc.
  destruct (Legacy_cleanupVisitors_eq h s p c now Hp Hc) as (s' & E & Hlook).
  exists s'. split; [done|]. split.
  { unfold Legacy.cleanupVisitors in E. rewrite Hp in E. simpl in E.
    rewrite Hc in E. simpl in E. by injection E as <-. }
  split_and!.
  - intros ip v Hv Hidle. rewrite Hlook, Hv.
    destruct (Z.ltb_spec (MaxIdleTime c) (now - lastSeen v)); [done|lia].
  - intros ip v Hv Hyoung. rewrite Hlook, Hv.
    destruct (Z.ltb_spec (MaxIdleTime c) (now - lastSeen v)); [lia|done].
  - intros ip Hv. by rewrite Hlook, Hv.
  - destruct (cleanupVisitors_eq h {| config := p; visitors := Legacy.visitors s |}
                now c Hc) as (rl' & E' & _ & Hlook').
    exists rl'. split; [done|]. intros ip Hne. rewrite Hlook', Hlook. simpl.
    destruct (Legacy.visitors s !! ip) as [v|]; [|done].
    specialize (Hne v eq_refl).
    destruct (Z.leb_spec (MaxIdleTime c) (now - lastSeen v)),
             (Z.ltb_spec (MaxIdleTime c) (now - lastSeen v)); try done; lia.
Qed.

Lemma Legacy_sweep_strict_witness :
  ∃ s', Legacy.cleanupVisitors heap0
          {| Legacy.config := Some 1%positive;
             Legacy.visitors := {[ "192.0.2.1:4711"%string := spent_visitor ]} |}
          (180 * Second) = Some s' ∧
        Legacy.visitors s' !! "192.0.2.1:4711"%string = Some spent_visitor.
Proof.
  destruct (Legacy_sweep_strict heap0
              {| Legacy.config := Some 1%positive;
                 Legacy.visitors := {[ "192.0.2.1:4711"%string := spent_visitor ]} |}
              1%positive defaults (180 * Second) eq_refl eq_refl)
    as (s' & E & _ & _ & Hkeep & _).
  exists s'. split; [exact E|].
  apply Hkeep; [reflexivity | by vm_compute].
Defined.

(** A bucket without capacity refuses every check. *)
Lemma Allow_no_capacity l now : capacity l <= 0 → (Allow l now).1 = false.
Proof.
  intros Hcap. rewrite Allow_verdict. apply Qle_bool_false.
  assert (inject_Z (capacity l) <= 0)%Q as Hq.
  { change 0%Q with (inject_Z 0). by rewrite <- Zle_Qle. }
  unfold refill. destruct (Qle_bool _ _) eqn:E; [lra|].
  apply Qle_bool_false in E. lra.
Qed.

(** [X10] The earlier [Initialize] does not validate.  It stores the
    pointer it is given and leaves the configuration, the store and the
    visitors as they are.  With a burst of 0 or less the request of an
    address not seen before is then refused, and so is every later request
    of that address, on whatever store: its bucket has no capacity. *)
Theorem Legacy_Initialize_unvalidated (h : heap) s p c :
  h !! p = Some c →
  ∃ s0,
    Legacy.Initialize (Some p) s h = (s0, h) ∧
    Legacy.config s0 = Some p ∧
    Legacy.visitors s0 = Legacy.visitors s ∧
    (Burst c <= 0 →
     ∀ r tSeen tAllow,
       Legacy.visitors s !! RemoteAddr r = None →
       ∃ s1 v1,
         Legacy.RateLimitMiddleware h s0 r tSeen tAllow = Some (false, s1) ∧
         Legacy.visitors s1 !! RemoteAddr r = Some v1 ∧
         capacity (limiter v1) <= 0) ∧
    (∀ s1 r v1,
       Legacy.visitors s1 !! RemoteAddr r = Some v1 →
       capacity (limiter v1) <= 0 →
       ∀ (h2 : heap) tSeen tAllow,
         ∃ s2 v2,
           Legacy.RateLimitMiddleware h2 s1 r tSeen tAllow = Some (false, s2) ∧
           Legacy.visitors s2 !! RemoteAddr r = Some v2 ∧
           capacity (limiter v2) <= 0).
Proof.
  intros Hc. eexists. split; [done|]. simpl. split_and!; try done.
  - intros Hb r tSeen tAllow Hfresh.
    unfold Legacy.RateLimitMiddleware, Legacy.getVisitor. simpl.
    rewrite Hfresh. simpl. rewrite Hc. simpl.
    set (l := NewLimiter (Limit (RequestsPerSecond c)) (Burst c) tSeen).
    pose proof (Allow_no_capacity l tAllow Hb) as Hv.
    destruct (Allow_fields l tAllow) as (_ & Ec & _).
    destruct (Allow l tAllow) as [ok l'] eqn:E. simpl in *. subst ok.
    eexists _, _. split; [done|]. simpl.
    rewrite alter_insert_eq, lookup_insert_eq. split; [done|]. simpl. lia.
  - intros s1 r v1 Hv1 Hcap h2 tSeen tAllow.
    unfold Legacy.RateLimitMiddleware, Legacy.getVisitor. rewrite Hv1. simpl.
    pose proof (Allow_no_capacity (limiter v1) tAllow Hcap) as Hv.
    destruct (Allow_fields (limiter v1) tAllow) as (_ & Ec & _).
    destruct (Allow (limiter v1) tAllow) as [ok l'] eqn:E. simpl in *. subst ok.
    eexists _, _. split; [done|]. simpl.
    rewrite alter_insert_eq, lookup_insert_eq. split; [done|]. simpl. lia.
Qed.

Lemma Legacy_Initialize_unvalidated_witness :
  ∃ s0 s1,
    Legacy.Initialize (Some 1%positive)
      {| Legacy.config := None; Legacy.visitors := ∅ |} heap_zero =
    (s0, heap_zero) ∧
    Legacy.RateLimitMiddleware heap_zero s0 proxied_request 0 0 = Some (false, s1).
Proof.
  destruct (Legacy_Initialize_unvalidated heap_zero
              {| Legacy.config := None; Legacy.visitors := ∅ |}
              1%positive zero_config eq_refl)
    as (s0 & E & _ & _ & Hrej & _).
  destruct (Hrej ltac:(by vm_compute) proxied_request 0 0 eq_refl)
    as (s1 & v1 & E1 & _).
  exists s0, s1. split; [exact E | exact E1].
Defined.

(** [X11] Building the earlier middleware.  With [config] nil the package
    gets a new default configuration, allocated at an address the store did
    not hold; with [config] set nothing changes.  Either way the visitors
    stay, [config] is set afterwards, and the handler answers every
    request. *)
Theorem Legacy_setup (h : heap) s :
  (∀ p, Legacy.config s = Some p → is_Some (h !! p)) →
  ∃ s1 h1 p c,
    Legacy.RateLimitMiddleware_setup s h = (s1, h1) ∧
    Legacy.config s1 = Some p ∧ h1 !! p = Some c ∧
    Legacy.visitors s1 = Legacy.visitors s ∧
    (Legacy.config s = None → c = defaults ∧ h !! p = None) ∧
    (is_Some (Legacy.config s) → s1 = s ∧ h1 = h) ∧
    Legacy.RateLimitMiddleware_setup s1 h1 = (s1, h1) ∧
    ∀ r tSeen tAllow,
      is_Some (Legacy.RateLimitMiddleware h1 s1 r tSeen tAllow).
Proof.
  intros Hptr.
  assert (∀ (s1 : Legacy.state) (h1 : heap) p c,
            Legacy.config s1 = Some p → h1 !! p = Some c →
            ∀ r tSeen tAllow,
              is_Some (Legacy.RateLimitMiddleware h1 s1 r tSeen tAllow)) as Htotal.
  { intros s1 h1 p c Hp Hc r tSeen tAllow.
    unfold Legacy.RateLimitMiddleware, Legacy.getVisitor.
    destruct (Legacy.visitors s1 !! RemoteAddr r) as [v|]; simpl.
    - destruct (Allow _ _). by eexists.
    - rewrite Hp. simpl. rewrite Hc. simpl. destruct (Allow _ _). by eexists. }
  unfold Legacy.RateLimitMiddleware_setup.
  destruct (Legacy.config s) as [p|] eqn:Hp.
  - destruct (Hptr p eq_refl) as [c Hc]. exists s, h, p, c.
    rewrite Hp. split_and!; try done. by eapply Htotal.
  - simpl. eexists _, _, (fresh (dom h)), defaults. split; [done|]. simpl.
    split_and!; try done.
    + by rewrite lookup_insert_eq.
    + intros _. split; [done | apply fresh_not_allocated].
    + eapply Htotal; [done|]. by rewrite lookup_insert_eq.
Qed.

Lemma Legacy_setup_witness :
  ∃ s1 h1,
    Legacy.RateLimitMiddleware_setup
      {| Legacy.config := None; Legacy.visitors := ∅ |} ∅ = (s1, h1) ∧
    is_Some (Legacy.RateLimitMiddleware h1 s1 proxied_request 0 0).
Proof.
  destruct (Legacy_setup ∅ {| Legacy.config := None; Legacy.visitors := ∅ |})
    as (s1 & h1 & p & c & E & _ & _ & _ & _ & _ & _ & Htotal).
  - intros p [=].
  - exists s1, h1. split; [exact E | apply Htotal].
Defined.

(** [X12] The earlier key is the remote address.  The handler of the
    package-level variant reads and writes the entry of the request's
    [RemoteAddr] only: the entry of every other address is left as it was,
    so the requests of another address, another port of the same host
    included, are answered as before. *)
Theorem Legacy_isolation_by_address (h : heap) s r r' tSeen tAllow ok s1 :
  RemoteAddr r ≠ RemoteAddr r' →
  Legacy.RateLimitMiddleware h s r tSeen tAllow = Some (ok, s1) →
  Legacy.config s1 = Legacy.config s ∧
  Legacy.visitors s1 !! RemoteAddr r' = Legacy.visitors s !! RemoteAddr r' ∧
  is_Some (Legacy.visitors s1 !! RemoteAddr r) ∧
  ∀ t1 t2,
    fst <$> Legacy.RateLimitMiddleware h s1 r' t1 t2 =
    fst <$> Legacy.RateLimitMiddleware h s r' t1 t2.
Proof.
  intros Hne Hrun.
  assert (Legacy.config s1 = Legacy.config s ∧
          Legacy.visitors s1 !! RemoteAddr r' = Legacy.visitors s !! RemoteAddr r' ∧
          is_Some (Legacy.visitors s1 !! RemoteAddr r)) as (Ec & Hf & Hin).
  { unfold Legacy.RateLimitMiddleware, Legacy.getVisitor in Hrun.
    destruct (Legacy.visitors s !! RemoteAddr r) as [v|]; simpl in Hrun.
    - destruct (Allow _ _) as [ok' l']. injection Hrun as _ <-. simpl.
      rewrite alter_insert_eq, lookup_insert_eq.
      rewrite lookup_insert_ne by done.
      split_and!; first [done | by eexists].
    - destruct (Legacy.config s) as [p|] eqn:Hp; [|done]. simpl in Hrun.
      destruct (h !! p) as [c|]; [|done]. simpl in Hrun.
      destruct (Allow _ _) as [ok' l']. injection Hrun as _ <-. simpl.
      rewrite alter_insert_eq, lookup_insert_eq.
      rewrite lookup_insert_ne by done.
      split_and!; first [done | by eexists]. }
  split_and!; try done. intros t1 t2.
  unfold Legacy.RateLimitMiddleware, Legacy.getVisitor. rewrite Hf, Ec.
  destruct (Legacy.visitors s !! RemoteAddr r') as [v|]; simpl.
  - by destruct (Allow _ _).
  - destruct (Legacy.config s) as [p|]; [|done]. simpl.
    destruct (h !! p) as [c|]; [|done]. simpl. by destruct (Allow _ _).
Qed.

Lemma Legacy_isolation_by_address_witness :
  ∃ s1,
    Legacy.RateLimitMiddleware heap0
      {| Legacy.config := Some 1%positive; Legacy.visitors := ∅ |}
      proxied_request 0 0 = Some (true, s1) ∧
    Legacy.visitors s1 !! "192.0.2.1:4712"%string = None.
Proof.
  eexists. split; [reflexivity|].
  refine (proj1 (proj2 (Legacy_isolation_by_address heap0
            {| Legacy.config := Some 1%positive; Legacy.visitors := ∅ |}
            proxied_request
            {| Header_Get := header_of "" ""; RemoteAddr := "192.0.2.1:4712" |}
            0 0 true _ _ eq_refl))).
  discriminate.
Defined.

(** ** The package-level instance *)

Lemma Global_Initialize_Some (pk : Global.package) (h : heap) cfg rl h' :
  New cfg h = Some (rl, h') →
  Global.Initialize cfg pk h =
  Some ({| Global.limiters :=
             <[fresh (dom (Global.limiters pk)) := rl]> (Global.limiters pk);
           Global.globalLimiter := Some (fresh (dom (Global.limiters pk))) |},
        h').
Proof. intros HNew. unfold Global.Initialize. by rewrite HNew. Qed.

(** [X13] The middleware of the package initialises once.  With
    [globalLimiter] nil, [RateLimitMiddleware] makes a new limiter with an
    empty registry on a new default configuration, sets [globalLimiter] to
    it and returns its handler; existing limiters and configurations are
    untouched.  With [globalLimiter] set it changes nothing and returns the
    handler of that limiter; so every later call returns the handler of the
    same limiter. *)
Theorem Global_lazy_init (pk : Global.package) (h : heap) :
  (∀ q, Global.globalLimiter pk = Some q →
        Global.RateLimitMiddleware pk h = Some (q, pk, h)) ∧
  (Global.globalLimiter pk = None →
   ∃ q p pk' h',
     Global.RateLimitMiddleware pk h = Some (q, pk', h') ∧
     Global.globalLimiter pk' = Some q ∧
     Global.limiters pk !! q = None ∧
     Global.limiters pk' !! q = Some {| config := p; visitors := ∅ |} ∧
     (∀ q', q' ≠ q → Global.limiters pk' !! q' = Global.limiters pk !! q') ∧
     h !! p = None ∧ h' !! p = Some defaults ∧
     (∀ p', p' ≠ p → h' !! p' = h !! p') ∧
     Global.RateLimitMiddleware pk' h' = Some (q, pk', h')).
Proof.
  split.
  - intros q Hq. unfold Global.RateLimitMiddleware. rewrite Hq. simpl.
    by rewrite Hq.
  - intros Hnil. unfold Global.RateLimitMiddleware. rewrite Hnil.
    unfold DefaultConfig.
    set (p := fresh (dom h)).
    assert (h !! p = None) as Hp by apply fresh_not_allocated.
    assert (Config_Validate defaults = defaults) as Hd by done.
    rewrite (Global_Initialize_Some pk _ (Some p)
               {| config := p; visitors := ∅ |} (<[p := defaults]> h)).
    2:{ rewrite (New_Some _ p defaults) by (by rewrite lookup_insert_eq).
        by rewrite Hd, insert_insert_eq. }
    simpl. set (q := fresh (dom (Global.limiters pk))).
    assert (Global.limiters pk !! q = None) as Hq
      by apply not_elem_of_dom, is_fresh.
    eexists q, p, _, _. split; [done|]. simpl. split_and!; try done.
    + by rewrite lookup_insert_eq.
    + intros q' Hne. by rewrite lookup_insert_ne.
    + by rewrite lookup_insert_eq.
    + intros p' Hne. by rewrite lookup_insert_ne.
Qed.

(** [X14] [Initialize] does not reach the handlers already built.  It
    allocates a new limiter for [globalLimiter]; a limiter that existed
    before keeps its registry, and, unless the new configuration is the very
    one it points to, its handler answers as before: the configuration
    passed to a later [Initialize] plays no part in it. *)
Theorem Initialize_leaves_handlers
    (pk : Global.package) (h : heap) cfg pk' h' q rl c :
  Global.Initialize cfg pk h = Some (pk', h') →
  Global.limiters pk !! q = Some rl →
  h !! config rl = Some c →
  (∀ p, cfg = Some p → p ≠ config rl) →
  Global.globalLimiter pk' ≠ Some q ∧
  Global.limiters pk' !! q = Some rl ∧
  h' !! config rl = Some c ∧
  ∀ ip tSeen tAllow,
    ∃ ok rl1,
      Check h rl ip tSeen tAllow = Some (ok, rl1) ∧
      fst <$> Global.ServeHTTP q pk' h' ip tSeen tAllow = Some ok ∧
      fst <$> Global.ServeHTTP q pk h ip tSeen tAllow = Some ok.
Proof.
  intros HInit Hq Hc Hcfg.
  unfold Global.Initialize in HInit.
  destruct (New cfg h) as [[rl0 h0]|] eqn:HNew; [|done].
  simpl in HInit. injection HInit as <- <-.
  assert (fresh (dom (Global.limiters pk)) ≠ q) as Hne.
  { intros Heq. pose proof (is_fresh (dom (Global.limiters pk))) as Hf.
    rewrite Heq in Hf. apply Hf. apply elem_of_dom. by eexists. }
  assert (h0 !! config rl = Some c) as Hc0.
  { destruct cfg as [p|].
    - destruct (h !! p) as [c0|] eqn:Hp.
      + rewrite (New_Some h p c0 Hp) in HNew. injection HNew as _ <-.
        rewrite lookup_insert_ne; [done | by apply Hcfg].
      + unfold New in HNew. by rewrite (Validate_None h p Hp) in HNew.
    - rewrite New_nil in HNew. injection HNew as _ <-.
      rewrite lookup_insert_ne; [done|].
      intros Heq. pose proof (fresh_not_allocated h) as Hf.
      rewrite Heq in Hf. congruence. }
  simpl. split_and!.
  - congruence.
  - by rewrite lookup_insert_ne.
  - done.
  - intros ip tSeen tAllow.
    unfold Global.ServeHTTP. simpl. rewrite lookup_insert_ne by done.
    rewrite Hq. simpl.
    rewrite (Check_eq _ _ _ _ _ _ Hc), (Check_eq _ _ _ _ _ _ Hc0). simpl.
    by eexists _, _.
Qed.

Lemma Initialize_leaves_handlers_witness :
  ∃ pk' h',
    Global.Initialize (Some 2%positive)
      {| Global.limiters := {[ 1%positive := spent_registry ]};
         Global.globalLimiter := Some 1%positive |}
      (<[2%positive := zero_config]> heap0) = Some (pk', h') ∧
    Global.limiters pk' !! 1%positive = Some spent_registry ∧
    Global.globalLimiter pk' ≠ Some 1%positive.
Proof.
  assert (∃ pk' h',
            Global.Initialize (Some 2%positive)
              {| Global.limiters := {[ 1%positive := spent_registry ]};
                 Global.globalLimiter := Some 1%positive |}
              (<[2%positive := zero_config]> heap0) = Some (pk', h'))
    as (pk' & h' & E).
  { eexists _, _. reflexivity. }
  exists pk', h'. split; [exact E|].
  destruct (Initialize_leaves_handlers
              {| Global.limiters := {[ 1%positive := spent_registry ]};
                 Global.globalLimiter := Some 1%positive |}
              (<[2%positive := zero_config]> heap0) (Some 2%positive)
              pk' h' 1%positive spent_registry defaults
              E eq_refl eq_refl)
    as (Hg & Hl & _).
  - intros p [= <-]. discriminate.
  - split; [exact Hl | exact Hg].
Defined.

(** ** The client key, continued *)

Lemma Split_first first rest sep :
  occurs sep first = false →
  Split (String.append first (String sep rest)) sep = first :: Split rest sep.
Proof.
  induction first as [|c first IH]; simpl.
  - intros _. by rewrite Ascii.eqb_refl.
  - intros [Hc Hocc]%orb_false_elim. rewrite Hc, IH; done.
Qed.

Lemma append_empty s : String.append s EmptyString = s.
Proof.
  induction s as [|c s IH]; [done|].
  change (String c (String.append s EmptyString) = String c s). by f_equal.
Qed.

Lemma Split_none s sep : occurs sep s = false → Split s sep = [s].
Proof.
  induction s as [|c s IH]; simpl; [done|].
  intros [Hc Hocc]%orb_false_elim. rewrite Hc, IH; done.
Qed.

(** [X15] The key comes from the first entry alone.  When X-Forwarded-For
    is not empty, the key is the trimmed text before its first comma, the
    whole header when it has no comma: the later entries, X-Real-IP and the
    remote address play no part, so two requests that agree on that text
    get the same key.  A header that begins with a comma gives the trimmed
    empty string as key; there is no fallback to the other two sources. *)
Theorem client_key_first_entry
    (TrimSpace : string → string)
    (SplitHostPort : string → option (string * string))
    (r : request) (first rest : string) :
  Header_Get r "X-Forwarded-For" = String.append first rest →
  String.append first rest ≠ EmptyString →
  occurs "," first = false →
  (rest = EmptyString ∨ ∃ rest', rest = String "," rest') →
  getClientIP TrimSpace SplitHostPort r = TrimSpace first ∧
  (∀ r', Header_Get r' "X-Forwarded-For" = String.append first rest →
         getClientIP TrimSpace SplitHostPort r' =
         getClientIP TrimSpace SplitHostPort r) ∧
  (first = EmptyString →
   getClientIP TrimSpace SplitHostPort r = TrimSpace EmptyString).
Proof.
  intros Hx Hne Hocc Hrest.
  assert (∀ r0, Header_Get r0 "X-Forwarded-For" = String.append first rest →
                getClientIP TrimSpace SplitHostPort r0 = TrimSpace first) as Hkey.
  { intros r0 H0. unfold getClientIP. rewrite H0.
    apply String_eqb_false in Hne. rewrite Hne. simpl.
    destruct Hrest as [-> | [rest' ->]].
    - rewrite append_empty.
      by rewrite (Split_none first ",") by done.
    - by rewrite Split_first. }
  split_and!.
  - by apply Hkey.
  - intros r' Hr'. by rewrite !Hkey.
  - intros ->. by apply Hkey.
Qed.

Lemma client_key_first_entry_witness :
  getClientIP asciiTrimSpace splitLastColon proxied_request =
  asciiTrimSpace " 203.0.113.7 ".
Proof.
  refine (proj1 (client_key_first_entry asciiTrimSpace splitLastColon
                   proxied_request " 203.0.113.7 " ", 10.0.0.1"
                   eq_refl _ eq_refl _)).
  - discriminate.
  - right. by eexists.
Defined.

(** ** The earlier variant against [RateLimiter] *)

(** [C5] The boundary of the earlier sweep.  An entry whose idle time is
    exactly [MaxIdleTime] is kept, unchanged, by a pass of the package-level
    variant, whose test is [time.Since(lastSeen) > MaxIdleTime]; a pass of
    [RateLimiter] on the same visitors and configuration deletes it. *)
Theorem Legacy_sweep_keeps_boundary (h : heap) s p c now ip v :
  Legacy.config s = Some p →
  h !! p = Some c →
  Legacy.visitors s !! ip = Some v →
  now - lastSeen v = MaxIdleTime c →
  (∃ s', Legacy.cleanupVisitors h s now = Some s' ∧
         Legacy.visitors s' !! ip = Some v) ∧
  (∃ rl', cleanupVisitors h {| config := p; visitors := Legacy.visitors s |} now =
            Some rl' ∧
          visitors rl' !! ip = None).
Proof.
  intros Hp Hc Hv Hage. split.
  - destruct (Legacy_cleanupVisitors_eq h s p c now Hp Hc) as (s' & E & Hlook).
    exists s'. split; [done|]. rewrite Hlook, Hv.
    destruct (Z.ltb_spec (MaxIdleTime c) (now - lastSeen v)); [lia|done].
  - destruct (cleanupVisitors_eq h {| config := p; visitors := Legacy.visitors s |}
                now c Hc) as (rl' & E & _ & Hlook).
    exists rl'. split; [done|]. rewrite Hlook. simpl. rewrite Hv.
    destruct (Z.leb_spec (MaxIdleTime c) (now - lastSeen v)); [done|lia].
Qed.

Lemma Legacy_sweep_keeps_boundary_witness :
  (∃ s', Legacy.cleanupVisitors heap0
           {| Legacy.config := Some 1%positive;
              Legacy.visitors := {[ "192.0.2.1:4711"%string := spent_visitor ]} |}
           (180 * Second) = Some s' ∧
         Legacy.visitors s' !! "192.0.2.1:4711"%string = Some spent_visitor) ∧
  (∃ rl', cleanupVisitors heap0
            {| config := 1%positive;
               visitors := {[ "192.0.2.1:4711"%string := spent_visitor ]} |}
            (180 * Second) = Some rl' ∧
          visitors rl' !! "192.0.2.1:4711"%string = None).
Proof.
  destruct (Legacy_sweep_keeps_boundary heap0
              {| Legacy.config := Some 1%positive;
                 Legacy.visitors := {[ "192.0.2.1:4711"%string := spent_visitor ]} |}
              1%positive defaults (180 * Second) "192.0.2.1:4711" spent_visitor
              eq_refl eq_refl)
    as [(s' & E & Hkept) (rl' & E' & Hgone)];
    [vm_compute; reflexivity | vm_compute; reflexivity |].
  split.
  - exists s'. split; [exact E | exact Hkept].
  - exists rl'. split; [exact E' | exact Hgone].
Defined.

(** [C9] The key of the earlier handler.  The handler of the package-level
    variant files the request under its raw [RemoteAddr], port included:
    that is the one key it adds, and a request with the same [RemoteAddr]
    has the same effect whatever its X-Forwarded-For and X-Real-IP headers
    are.  No precedence among the three sources is applied. *)
Theorem Legacy_key_is_raw_address (h : heap) s r tSeen tAllow ok s1 :
  Legacy.RateLimitMiddleware h s r tSeen tAllow = Some (ok, s1) →
  dom (Legacy.visitors s1) = {[ RemoteAddr r ]} ∪ dom (Legacy.visitors s) ∧
  ∀ r', RemoteAddr r' = RemoteAddr r →
        Legacy.RateLimitMiddleware h s r' tSeen tAllow = Some (ok, s1).
Proof.
  intros Hrun. split.
  - unfold Legacy.RateLimitMiddleware, Legacy.getVisitor in Hrun.
    destruct (Legacy.visitors s !! RemoteAddr r) as [v|]; simpl in Hrun.
    + destruct (Allow _ _) as [ok' l']. injection Hrun as _ <-. simpl.
      by rewrite alter_insert_eq, dom_insert_L.
    + destruct (Legacy.config s) as [p|]; [|done]. simpl in Hrun.
      destruct (h !! p) as [c|]; [|done]. simpl in Hrun.
      destruct (Allow _ _) as [ok' l']. injection Hrun as _ <-. simpl.
      by rewrite alter_insert_eq, dom_insert_L.
  - intros r' Heq. unfold Legacy.RateLimitMiddleware in *. by rewrite Heq.
Qed.

Lemma Legacy_key_is_raw_address_witness :
  ∃ s1,
    Legacy.RateLimitMiddleware heap0
      {| Legacy.config := Some 1%positive; Legacy.visitors := ∅ |}
      proxied_request 0 0 = Some (true, s1) ∧
    dom (Legacy.visitors s1) =
      {[ RemoteAddr proxied_request ]}
      ∪ dom (Legacy.visitors
               {| Legacy.config := Some 1%positive; Legacy.visitors := ∅ |}) ∧
    RemoteAddr proxied_request = "192.0.2.1:4711"%string ∧
    getClientIP asciiTrimSpace splitLastColon proxied_request =
      "203.0.113.7"%string.
Proof.
  assert (∃ s1, Legacy.RateLimitMiddleware heap0
                  {| Legacy.config := Some 1%positive; Legacy.visitors := ∅ |}
                  proxied_request 0 0 = Some (true, s1)) as [s1 E].
  { eexists. reflexivity. }
  exists s1. split; [exact E|]. split; [|split; reflexivity].
  exact (proj1 (Legacy_key_is_raw_address heap0
                  {| Legacy.config := Some 1%positive; Legacy.visitors := ∅ |}
                  proxied_request 0 0 true s1 E)).
Defined.
